(** * Quick fix "move all variables to a namespace" (server/src/quickfixes.ts)

  A shallow embedding of [getMoveAllVariablesToNamespaceQuickFix] and of
  its helpers [getNamespaceStructEndRange] and
  [editNamespaceVariablesInFunctions], followed by the properties of the
  edits they compute.

  Strings are [string] (one [ascii] per code unit), offsets into the
  document are [nat], indices handed to [slice] are [Z] because
  [indexOf] answers [-1] when nothing is found. *)

From Stdlib Require Import String Ascii List Bool Arith ZArith Lia.
From Stdlib Require Import Permutation.
Import ListNotations.

Local Open Scope string_scope.
Local Open Scope list_scope.

(** ** JavaScript string primitives used by the source *)

Module JsString.

(** The line feed of the template literals. *)
Definition nl : string := String "010"%char EmptyString.

Fixpoint take (n : nat) (s : string) : string :=
  match n, s with
  | S k, String c s' => String c (take k s')
  | _, _ => EmptyString
  end.

Fixpoint drop (n : nat) (s : string) : string :=
  match n, s with
  | S k, String _ s' => drop k s'
  | _, _ => s
  end.

(** [startsWith s pat]: [pat] is an initial segment of [s]. *)
Fixpoint startsWith (s pat : string) {struct pat} : bool :=
  match pat, s with
  | EmptyString, _ => true
  | String p pat', String c s' => Ascii.eqb p c && startsWith s' pat'
  | String _ _, EmptyString => false
  end.

(** [s.includes(pat)] *)
Fixpoint includes (s pat : string) : bool :=
  startsWith s pat ||
  match s with
  | EmptyString => false
  | String _ s' => includes s' pat
  end.

(** [s.indexOf(c)] for a one-character search string: the index of the
    first occurrence, [-1] when there is none. *)
Fixpoint indexOfFrom (i : Z) (s : string) (c : ascii) : Z :=
  match s with
  | EmptyString => (-1)%Z
  | String d s' => if Ascii.eqb d c then i else indexOfFrom (i + 1)%Z s' c
  end.

Definition indexOf (s : string) (c : ascii) : Z := indexOfFrom 0%Z s c.

(** Index normalisation of [slice]: a negative index counts from the end,
    and everything is clamped to [0 .. length]. *)
Definition relativeIndex (len i : Z) : Z :=
  if (i <? 0)%Z then Z.max (len + i) 0 else Z.min i len.

(** [s.slice(b, e)] *)
Definition slice (s : string) (b e : Z) : string :=
  let len := Z.of_nat (String.length s) in
  let from := relativeIndex len b in
  let to := relativeIndex len e in
  take (Z.to_nat (to - from)) (drop (Z.to_nat from) s).

(** [s.slice(b)] *)
Definition sliceFrom (s : string) (b : Z) : string :=
  slice s b (Z.of_nat (String.length s)).

End JsString.
Import JsString.

(** ** The regular expression [\bNAME\b] with the [g] flag

    [editNamespaceVariablesInFunctions] builds, for every variable, the
    pattern [\b<name>\b] and replaces every match by [$.<name>].  A
    variable name is a Solidity identifier: letters, digits, [_] and [$].
    In the pattern a letter, a digit or [_] stands for itself and [$]
    asserts the end of the input; in the replacement text [$$] stands for
    one [$] and nothing else that an identifier can spell is a pattern
    (the expression has no groups).  The model below reads the name that
    way; names with other characters are outside of it. *)

Module Regex.

(** [\w] without the [u] and [i] flags: [A-Za-z0-9_]. *)
Definition isWord (c : ascii) : bool :=
  let n := nat_of_ascii c in
  (((48 <=? n) && (n <=? 57)) || ((65 <=? n) && (n <=? 90))
   || (n =? 95) || ((97 <=? n) && (n <=? 122)))%nat.

Definition isWordAt (o : option ascii) : bool :=
  match o with
  | Some c => isWord c
  | None => false
  end.

(** [\b] between the character before the position ([None] at the start of
    the input) and the character after it ([None] at the end). *)
Definition wordBoundary (prev next : option ascii) : bool :=
  xorb (isWordAt prev) (isWordAt next).

Definition first (s : string) : option ascii :=
  match s with
  | EmptyString => None
  | String c _ => Some c
  end.

Fixpoint lastOr (d : option ascii) (s : string) : option ascii :=
  match s with
  | EmptyString => d
  | String c s' => lastOr (Some c) s'
  end.

(** The characters of the name that consume input: all but [$]. *)
Fixpoint literals (name : string) : string :=
  match name with
  | EmptyString => EmptyString
  | String c name' =>
      if Ascii.eqb c "$" then literals name' else String c (literals name')
  end.

(** The name as a pattern, at the start of [s]: the input that is left
    behind the match, if there is a match. *)
Fixpoint matchName (name s : string) {struct name} : option string :=
  match name with
  | EmptyString => Some s
  | String c name' =>
      if Ascii.eqb c "$" then
        match s with
        | EmptyString => matchName name' s
        | String _ _ => None
        end
      else
        match s with
        | String d s' => if Ascii.eqb c d then matchName name' s' else None
        | EmptyString => None
        end
  end.

(** Does [\bNAME\b] match at the current position, [prev] being the
    character before it and [s] the rest of the input? *)
Definition matchAt (name : string) (prev : option ascii) (s : string) : bool :=
  wordBoundary prev (first s)
  && match matchName name s with
     | Some rest => wordBoundary (lastOr prev (literals name)) (first rest)
     | None => false
     end.

(** The name as part of a replacement text. *)
Fixpoint expandName (name : string) : string :=
  match name with
  | EmptyString => EmptyString
  | String c name' =>
      if Ascii.eqb c "$" then
        match name' with
        | String d name'' =>
            if Ascii.eqb d "$" then String "$" (expandName name'')
            else String c (expandName name')
        | EmptyString => String c EmptyString
        end
      else String c (expandName name')
  end.

(** What a match is replaced by: [$.] is no pattern and stays. *)
Definition replacementText (name : string) : string := "$." ++ expandName name.

(** [s.replace(/\bNAME\b/g, "$.NAME")], scanning left to right.  After a
    match the search resumes behind it ([lastIndex]): [skip] counts the
    characters of the current match that are still to be passed over.
    Behind an empty match the search moves on by one character. *)
Fixpoint scan (name : string) (prev : option ascii) (skip : nat) (s : string)
  : string :=
  match s with
  | EmptyString =>
      if (skip =? 0)%nat && matchAt name prev EmptyString
      then replacementText name
      else EmptyString
  | String c s' =>
      match skip with
      | S k => scan name (Some c) k s'
      | O =>
          if matchAt name prev s then
            match String.length (literals name) with
            | O => replacementText name ++ String c (scan name (Some c) 0 s')
            | S k => replacementText name ++ scan name (Some c) k s'
            end
          else String c (scan name (Some c) 0 s')
      end
  end.

Definition replaceWord (name s : string) : string := scan name None 0 s.

(** Names of word characters only, not empty: the names the properties
    below are about. *)
Fixpoint allWord (s : string) : bool :=
  match s with
  | EmptyString => true
  | String c s' => isWord c && allWord s'
  end.

Definition wordName (name : string) : bool :=
  negb (String.eqb name "") && allWord name.

End Regex.
Import Regex.

(** ** Concrete syntax tree and cursor (the parser library's data)

    The parser itself is an external collaborator; its trees are modelled
    as they are handed over: a terminal carries its kind and its text, a
    nonterminal its kind and its children, trivia included. *)

Module NonterminalKind.

Inductive t : Set :=
| SourceUnit
| ContractDefinition
| FunctionBody
| Other (name : string).

Definition eqb (a b : t) : bool :=
  match a, b with
  | SourceUnit, SourceUnit => true
  | ContractDefinition, ContractDefinition => true
  | FunctionBody, FunctionBody => true
  | Other x, Other y => String.eqb x y
  | _, _ => false
  end.

End NonterminalKind.

Module TerminalKind.

Inductive t : Set :=
| SingleLineNatSpecComment
| CloseBrace
| Other (name : string).

Definition eqb (a b : t) : bool :=
  match a, b with
  | SingleLineNatSpecComment, SingleLineNatSpecComment => true
  | CloseBrace, CloseBrace => true
  | Other x, Other y => String.eqb x y
  | _, _ => false
  end.

End TerminalKind.

#[local] Unset Elimination Schemes.
Inductive Node : Type :=
| TerminalNode (kind : TerminalKind.t) (text : string)
| NonterminalNode (kind : NonterminalKind.t) (children : list Node).

#[local] Set Elimination Schemes.

(** [node.unparse()]: the text the node was parsed from. *)
Fixpoint unparse (n : Node) : string :=
  match n with
  | TerminalNode _ text => text
  | NonterminalNode _ children =>
      fold_right (fun c acc => unparse c ++ acc)%string EmptyString children
  end.

Definition isNonterminalWithKind (k : NonterminalKind.t) (n : Node) : bool :=
  match n with
  | NonterminalNode k' _ => NonterminalKind.eqb k' k
  | TerminalNode _ _ => false
  end.

Definition isTerminalWithKind (k : TerminalKind.t) (n : Node) : bool :=
  match n with
  | TerminalNode k' _ => TerminalKind.eqb k' k
  | NonterminalNode _ _ => false
  end.

(** A range of the document, in code units from its start
    ([text_index.TextRange]; the line and column of a text index are
    functions of its offset and are left out). *)
Record TextRange : Set := { tr_start : nat; tr_end : nat }.

(** A node together with the offset at which its text starts. *)
Definition Entry : Type := (Node * nat)%type.

(** The nodes of a subtree in the order in which [goToNext] visits them
    (first child, else next sibling, else next sibling of an ancestor),
    each with its text offset. *)
Fixpoint preorder (n : Node) (offset : nat) : list Entry :=
  (n, offset) ::
  match n with
  | TerminalNode _ _ => []
  | NonterminalNode _ children =>
      (fix siblings (cs : list Node) (off : nat) : list Entry :=
         match cs with
         | [] => []
         | c :: cs' =>
             preorder c off ++ siblings cs' (off + String.length (unparse c))
         end) children offset
  end.

Definition descendants (e : Entry) : list Entry :=
  tl (preorder (fst e) (snd e)).

(** A cursor: the node it was created on, the node it is on, the nodes
    still ahead of it, and whether it ran off the end of its subtree. *)
Record Cursor : Type := {
  c_root : Entry;
  c_current : Entry;
  c_ahead : list Entry;
  c_completed : bool
}.

Definition cursorAt (e : Entry) : Cursor :=
  {| c_root := e; c_current := e; c_ahead := descendants e;
     c_completed := false |}.

(** [cursor.spawn()]: a fresh cursor rooted at the current node, keeping
    the text offset. *)
Definition spawn (c : Cursor) : Cursor := cursorAt (c_current c).

(** [cursor.node()] *)
Definition node (c : Cursor) : Node := fst (c_current c).

(** [cursor.textRange] *)
Definition textRange (c : Cursor) : TextRange :=
  {| tr_start := snd (c_current c);
     tr_end := snd (c_current c) + String.length (unparse (node c)) |}.

(** The first node ahead that satisfies [p], with what lies behind it. *)
Fixpoint seek (p : Node -> bool) (ahead : list Entry)
  : option (Entry * list Entry) :=
  match ahead with
  | [] => None
  | e :: rest => if p (fst e) then Some (e, rest) else seek p rest
  end.

(** [goToNext] repeated until a node satisfies [p].  When none does the
    cursor has climbed back to its root and is completed. *)
Definition goToNextMatching (p : Node -> bool) (c : Cursor) : bool * Cursor :=
  match seek p (c_ahead c) with
  | Some (e, rest) =>
      (true, {| c_root := c_root c; c_current := e; c_ahead := rest;
                c_completed := false |})
  | None =>
      (false, {| c_root := c_root c; c_current := c_root c; c_ahead := [];
                 c_completed := true |})
  end.

Definition goToNextNonterminalWithKind (c : Cursor) (k : NonterminalKind.t)
  : bool * Cursor :=
  goToNextMatching (isNonterminalWithKind k) c.

Definition goToNextTerminalWithKind (c : Cursor) (k : TerminalKind.t)
  : bool * Cursor :=
  goToNextMatching (isTerminalWithKind k) c.

(** [language.parse(kind, text)] answers a tree and whether it is free of
    errors. *)
Record ParseOutput : Type := { isValid : bool; tree : Node }.

(** [parseOutput.createTreeCursor()] *)
Definition createTreeCursor (o : ParseOutput) : Cursor := cursorAt (tree o, 0).

(** ** Data model of the quick fix *)

Record Position : Set := { line : nat; character : nat }.

Record Range : Set := { r_start : Position; r_end : Position }.

(** The [Variable] of [./namespace]: name, declaration text and range of
    a state variable. *)
Record Variable_ : Set := {
  v_name : string;
  v_content : string;
  v_range : Range
}.

Record Namespace : Set := {
  ns_contractName : string;
  ns_prefix : string;
  ns_variables : list Variable_
}.

Record TextEdit : Set := { range : Range; newText : string }.

Record TextDocument : Set := { uri : string; getText : string }.

Record Diagnostic : Set := { d_range : Range; d_message : string }.

Inductive CodeActionKind : Set := QuickFix.

(** [changes]: the edits per document uri. *)
Record WorkspaceEdit : Set := { changes : list (string * list TextEdit) }.

Record CodeAction : Set := {
  title : string;
  kind : CodeActionKind;
  edit : WorkspaceEdit;
  diagnostics : list Diagnostic
}.

(** What the quick fix imports from the parser library and from modules
    of the repository that are not part of this development: the language
    version of a document ([./server]), the parser and the [name] of a
    contract definition ([@nomicfoundation/slang]), the namespace id and
    template ([./namespace]) and the translation of a text range into
    editor coordinates ([./helpers/slang]). *)
Class Collaborators : Type := {
  getSolidityVersion : TextDocument -> string;
  parse : string -> NonterminalKind.t -> string -> ParseOutput;
  contractDefinitionName : Node -> string;
  getNamespaceId : string -> string -> string;
  printNamespaceTemplate : Namespace -> string;
  slangToVSCodeRange : TextDocument -> TextRange -> Range
}.

(** ** The quick fix *)

Section QuickFixes.

Context {collaborators : Collaborators}.

(** [`${contractName}Storage storage $ = _get${contractName}Storage();`] *)
Definition expectedLine (contractName : string) : string :=
  contractName ++ "Storage storage $ = _get" ++ contractName ++ "Storage();".

(** The [variables.forEach] of [editNamespaceVariablesInFunctions]: one
    global replacement per variable, each on the result of the one before. *)
Definition replaceVariables (variables : list Variable_) (functionText : string)
  : string :=
  fold_left (fun replacement variable => replaceWord (v_name variable) replacement)
            variables functionText.

(** The text computed for one function body: the replacements, then the
    accessor line behind the first opening brace when something was
    replaced and the line is not in the text yet. *)
Definition rewriteFunctionText (contractName : string)
  (variables : list Variable_) (functionText : string) : string :=
  let replacement := replaceVariables variables functionText in
  if negb (String.eqb replacement functionText)
     && negb (includes replacement (expectedLine contractName))
  then
    let openingBracketIndex := indexOf replacement "{"%char in
    slice replacement 0 openingBracketIndex
    ++ "{" ++ nl ++ "        " ++ expectedLine contractName ++ nl
    ++ sliceFrom replacement (openingBracketIndex + 1)
  else replacement.

(** The [while] loop of [editNamespaceVariablesInFunctions].  Every turn
    moves the cursor forward, so [fuel] above the number of nodes ahead is
    never used up.  The node found is a nonterminal by construction, which
    is what the [assert] of the source checks. *)
Fixpoint functionBodyLoop (fuel : nat) (contractName : string)
  (variables : list Variable_) (textDocument : TextDocument)
  (functionBodyCursor : Cursor) (edits : list TextEdit) : list TextEdit :=
  match fuel with
  | O => edits
  | S fuel' =>
      let (found, functionBodyCursor) :=
        goToNextNonterminalWithKind functionBodyCursor
                                    NonterminalKind.FunctionBody in
      if found then
        let functionBodyNode := node functionBodyCursor in
        let functionText := unparse functionBodyNode in
        let replacement :=
          rewriteFunctionText contractName variables functionText in
        let edit :=
          {| range := slangToVSCodeRange textDocument
                                         (textRange functionBodyCursor);
             newText := replacement |} in
        functionBodyLoop fuel' contractName variables textDocument
                         functionBodyCursor (edits ++ [edit])
      else edits
  end.

(** [edits] is the array the source pushes to; the result is the array
    after the call. *)
Definition editNamespaceVariablesInFunctions (contractCursor : Cursor)
  (contractName : string) (variables : list Variable_)
  (textDocument : TextDocument) (edits : list TextEdit) : list TextEdit :=
  let functionBodyCursor := spawn contractCursor in
  functionBodyLoop (S (List.length (c_ahead functionBodyCursor))) contractName
                   variables textDocument functionBodyCursor edits.

Definition storageLocationTag (prefix contractName : string) : string :=
  "@custom:storage-location erc7201:" ++ getNamespaceId prefix contractName.

Definition getNamespaceStructEndRange (contractCursor : Cursor)
  (prefix contractName : string) : option TextRange :=
  let namespaceStructCursor := spawn contractCursor in
  let namespaceStructCursor :=
    snd (goToNextTerminalWithKind namespaceStructCursor
                                  TerminalKind.SingleLineNatSpecComment) in
  match node namespaceStructCursor with
  | TerminalNode _ natspecText =>
      if includes natspecText (storageLocationTag prefix contractName) then
        let namespaceStructEndCursor := spawn contractCursor in
        let namespaceStructEndCursor :=
          snd (goToNextTerminalWithKind namespaceStructEndCursor
                                        TerminalKind.CloseBrace) in
        Some (textRange namespaceStructEndCursor)
      else None
  | NonterminalNode _ _ => None
  end.

(** The [while] loop of [getMoveAllVariablesToNamespaceQuickFix].  Its
    last branch runs at most once, right before [break]: the loop is a
    search for the cursor on which that branch runs, and the two calls of
    the branch are made on the answer (see
    [getMoveAllVariablesToNamespaceQuickFix]). *)
Fixpoint locateContract (fuel : nat) (language contractName : string)
  (cursor : Cursor) : option Cursor :=
  match fuel with
  | O => None
  | S fuel' =>
      let (found, cursor) :=
        goToNextNonterminalWithKind cursor NonterminalKind.ContractDefinition in
      if found then
        let contractCursor := spawn cursor in
        let cursorNode := node contractCursor in
        let parseContract :=
          parse language NonterminalKind.ContractDefinition
                (unparse cursorNode) in
        if negb (isValid parseContract) then
          locateContract fuel' language contractName cursor
        else if negb (String.eqb (contractDefinitionName cursorNode)
                                 contractName) then
          locateContract fuel' language contractName cursor
        else Some contractCursor
      else None
  end.

Definition deleteEdit (variable : Variable_) : TextEdit :=
  {| range := v_range variable; newText := "" |}.

(** [editNewNamespace]; it is only called with a non-empty [variables]. *)
Definition editNewNamespace (prefix contractName : string)
  (variables : list Variable_) (edits : list TextEdit) : list TextEdit :=
  let namespace :=
    {| ns_contractName := contractName; ns_prefix := prefix;
       ns_variables := variables |} in
  match variables with
  | [] => edits
  | variable0 :: rest =>
      let insertVariableTextEdit :=
        {| range := v_range variable0;
           newText := printNamespaceTemplate namespace |} in
      (edits ++ [insertVariableTextEdit]) ++ map deleteEdit rest
  end.

(** The text of the template literal of [editExistingNamespace]: the
    backslash-newline pairs are line continuations. *)
Definition insertedText (indent : string) (variable : Variable_) : string :=
  indent ++ v_content variable ++ nl ++ indent ++ "}".

Definition editExistingNamespace (variables : list Variable_)
  (textDocument : TextDocument) (edits : list TextEdit)
  (structEndRange : TextRange) (indent : string) : list TextEdit :=
  fold_left
    (fun edits variable =>
       let deleteVariableTextEdit := deleteEdit variable in
       let insertVariableTextEdit :=
         {| range := slangToVSCodeRange textDocument structEndRange;
            newText := insertedText indent variable |} in
       (edits ++ [deleteVariableTextEdit]) ++ [insertVariableTextEdit])
    variables edits.

(** What the loop leaves in [namespaceStructEndRange] and [edits]. *)
Definition processContract (prefix contractName : string)
  (variables : list Variable_) (textDocument : TextDocument)
  : option TextRange * list TextEdit :=
  let language := getSolidityVersion textDocument in
  let parseOutput :=
    parse language NonterminalKind.SourceUnit (getText textDocument) in
  let cursor := createTreeCursor parseOutput in
  match locateContract (S (List.length (c_ahead cursor))) language contractName
                       cursor with
  | Some contractCursor =>
      (getNamespaceStructEndRange contractCursor prefix contractName,
       editNamespaceVariablesInFunctions contractCursor contractName variables
                                         textDocument [])
  | None => (None, [])
  end.

(** [None] is [undefined]. *)
Definition getMoveAllVariablesToNamespaceQuickFix
  (fixesDiagnostics : list Diagnostic) (title : string)
  (prefix contractName : string) (variables : list Variable_)
  (textDocument : TextDocument) : option CodeAction :=
  let (namespaceStructEndRange, edits) :=
    processContract prefix contractName variables textDocument in
  if (List.length variables =? 0)%nat then None
  else
    let edits :=
      match namespaceStructEndRange with
      | None => editNewNamespace prefix contractName variables edits
      | Some structEndRange =>
          editExistingNamespace variables textDocument edits structEndRange
                                "    "
      end in
    let workspaceEdit := {| changes := [(uri textDocument, edits)] |} in
    Some {| title := title; kind := QuickFix; edit := workspaceEdit;
            diagnostics := fixesDiagnostics |}.

End QuickFixes.

(** ** Vocabulary of the properties *)

(** A whole-word occurrence of [name] in [text]: the name, not preceded
    and not followed by a word character. *)
Definition occursWord (name text : string) : Prop :=
  exists pre post : string,
    text = (pre ++ name ++ post)%string
    /\ isWordAt (lastOr None pre) = false
    /\ isWordAt (first post) = false.

(** The same, decided: is there a position of [s] at which [\bNAME\b]
    matches? *)
Fixpoint matchesFrom (name : string) (prev : option ascii) (s : string) : bool :=
  matchAt name prev s ||
  match s with
  | EmptyString => false
  | String c s' => matchesFrom name (Some c) s'
  end.

Definition referenced (variables : list Variable_) (text : string) : bool :=
  existsb (fun v => matchesFrom (v_name v) None text) variables.

Fixpoint hasChar (c : ascii) (s : string) : bool :=
  match s with
  | EmptyString => false
  | String d s' => Ascii.eqb d c || hasChar c s'
  end.

(** Variables whose names are made of letters, digits and [_] only. *)
Definition wordNames (variables : list Variable_) : Prop :=
  forall v, In v variables -> wordName (v_name v) = true.

(** A name as the data model has it, an identifier: letters, digits, [_]
    and [$], at least one of them. *)
Fixpoint allNameChars (s : string) : bool :=
  match s with
  | EmptyString => true
  | String c s' => (isWord c || Ascii.eqb c "$") && allNameChars s'
  end.

Definition identifier (name : string) : bool :=
  negb (String.eqb name "") && allNameChars name.

Definition identifierNames (variables : list Variable_) : Prop :=
  forall v, In v variables -> identifier (v_name v) = true.

(** The variables whose names have no [$] in them. *)
Definition dollarFree (variables : list Variable_) : list Variable_ :=
  filter (fun v => negb (hasChar "$" (v_name v))) variables.

(** A text whose last character is no letter, digit or [_] (or that is
    empty): the text of a function body ends with its closing brace or
    semicolon and the blanks, comment and line end behind it. *)
Definition endsOutsideWord (text : string) : Prop :=
  isWordAt (lastOr None text) = false.



(** What is put behind the opening brace of a rewritten body. *)
Definition accessorInsertion (contractName : string) : string :=
  nl ++ "        " ++ expectedLine contractName ++ nl.

(** The replaced text with the accessor line put in, as the source does
    it with [indexOf] and [slice]. *)
Definition withAccessorLine (contractName replacement : string) : string :=
  let openingBracketIndex := indexOf replacement "{"%char in
  slice replacement 0 openingBracketIndex
  ++ "{" ++ nl ++ "        " ++ expectedLine contractName ++ nl
  ++ sliceFrom replacement (openingBracketIndex + 1).

(** The function bodies of a contract, in the order of the loop. *)
Definition functionBodies (contractCursor : Cursor) : list Entry :=
  filter (fun e => isNonterminalWithKind NonterminalKind.FunctionBody (fst e))
         (c_ahead (spawn contractCursor)).

Definition entryRange (e : Entry) : TextRange := textRange (cursorAt e).

Definition posLt (p q : Position) : bool :=
  ((line p <? line q) || ((line p =? line q) && (character p <? character q)))%nat.

(** Two ranges overlap when each starts before the other ends. *)
Definition overlaps (a b : Range) : bool :=
  posLt (r_start a) (r_end b) && posLt (r_start b) (r_end a).

Fixpoint pairwiseDisjoint (rs : list Range) : bool :=
  match rs with
  | [] => true
  | r :: rs' => forallb (fun r' => negb (overlaps r r')) rs' && pairwiseDisjoint rs'
  end.

(** The edits of a fix, over all documents. *)
Definition editsOf (a : CodeAction) : list TextEdit :=
  flat_map snd (changes (edit a)).

Section Vocabulary.

Context {collaborators : Collaborators}.

(** The edit the loop of [editNamespaceVariablesInFunctions] pushes for
    one function body. *)
Definition bodyEdit (contractName : string) (variables : list Variable_)
  (textDocument : TextDocument) (e : Entry) : TextEdit :=
  {| range := slangToVSCodeRange textDocument (entryRange e);
     newText := rewriteFunctionText contractName variables (unparse (fst e)) |}.

(** The edit of [editExistingNamespace] that carries a declaration. *)
Definition insertEdit (textDocument : TextDocument) (structEndRange : TextRange)
  (indent : string) (variable : Variable_) : TextEdit :=
  {| range := slangToVSCodeRange textDocument structEndRange;
     newText := insertedText indent variable |}.

(** The test the contract loop applies to a node before it stops on it. *)
Definition accepted (language contractName : string) (e : Entry) : bool :=
  isNonterminalWithKind NonterminalKind.ContractDefinition (fst e)
  && isValid (parse language NonterminalKind.ContractDefinition
                    (unparse (fst e)))
  && String.eqb (contractDefinitionName (fst e)) contractName.

(** What the contract loop leaves behind: the insertion point it found,
    and the edits of the function bodies. *)
Definition detectedContainer (prefix contractName : string)
  (variables : list Variable_) (textDocument : TextDocument)
  : option TextRange :=
  fst (processContract prefix contractName variables textDocument).

Definition functionEdits (prefix contractName : string)
  (variables : list Variable_) (textDocument : TextDocument) : list TextEdit :=
  snd (processContract prefix contractName variables textDocument).

(** The nodes the contract loop of a document looks at. *)
Definition scannedNodes (textDocument : TextDocument) : list Entry :=
  c_ahead (createTreeCursor
             (parse (getSolidityVersion textDocument)
                    NonterminalKind.SourceUnit (getText textDocument))).

(** A node the contract loop does not stop on: not a contract definition,
    or one that does not parse again on its own, or one of another name. *)
Definition passedOver (language contractName : string) (x : Entry) : Prop :=
  isNonterminalWithKind NonterminalKind.ContractDefinition (fst x) = false
  \/ isValid (parse language NonterminalKind.ContractDefinition
                    (unparse (fst x))) = false
  \/ contractDefinitionName (fst x) <> contractName.

(** The detector as the specification words it: from the first
    documentation comment of the contract, when it carries the tag, on to
    the next closing brace. *)
Definition structEndAfterComment (contractCursor : Cursor)
  (prefix contractName : string) : option TextRange :=
  let commentCursor :=
    snd (goToNextTerminalWithKind (spawn contractCursor)
                                  TerminalKind.SingleLineNatSpecComment) in
  match node commentCursor with
  | TerminalNode _ natspecText =>
      if includes natspecText (storageLocationTag prefix contractName) then
        Some (textRange (snd (goToNextTerminalWithKind commentCursor
                                                       TerminalKind.CloseBrace)))
      else None
  | NonterminalNode _ _ => None
  end.

End Vocabulary.

(** ** Sample documents

    Three Solidity documents with the trees a parser hands over for them
    (trivia are leaves of the tree), and one instance of the collaborators
    to run the quick fix on them. *)

Module Demo.

Definition tok (k text : string) : Node :=
  TerminalNode (TerminalKind.Other k) text.

Definition nt (k : string) (children : list Node) : Node :=
  NonterminalNode (NonterminalKind.Other k) children.

Definition ws (n : nat) : Node :=
  tok "Whitespace" (String.concat "" (repeat " " n)).

Definition eol : Node := tok "EndOfLine" nl.

Definition closeBrace : Node := TerminalNode TerminalKind.CloseBrace "}".

(** [<indent>uint256 <name>;] and a line end *)
Definition uintDeclaration (declarationKind : string) (indent : nat)
  (name : string) (lineEnd : list Node) : Node :=
  nt declarationKind
     ([ws indent;
       nt "TypeName" [nt "ElementaryType" [tok "UintKeyword" "uint256"]];
       ws 1; tok "Identifier" name; tok "Semicolon" ";"] ++ lineEnd).

Definition stateVariable (name : string) : Node :=
  nt "ContractMember" [uintDeclaration "StateVariableDefinition" 4 name [eol]].

(** [ <lhs> <op> <rhs>;] *)
Definition assignment (lhs op rhs : string) : Node :=
  nt "Statement"
     [nt "ExpressionStatement"
         [nt "AssignmentExpression"
             [ws 1; tok "Identifier" lhs; ws 1; tok "Operator" op; ws 1;
              tok "Identifier" rhs];
          tok "Semicolon" ";"]].

(** [ { <statements> }] and a line end *)
Definition functionBody (statements : list Node) : Node :=
  NonterminalNode NonterminalKind.FunctionBody
    [nt "Block"
        [ws 1; tok "OpenBrace" "{"; nt "Statements" statements; ws 1;
         closeBrace; eol]].

(** [    function <name>() public] and a body *)
Definition functionDefinition (name : string) (statements : list Node) : Node :=
  nt "ContractMember"
     [nt "FunctionDefinition"
         [ws 4; tok "FunctionKeyword" "function"; ws 1;
          nt "FunctionName" [tok "Identifier" name];
          nt "ParametersDeclaration"
             [tok "OpenParen" "("; tok "CloseParen" ")"];
          nt "FunctionAttributes"
             [nt "FunctionAttribute" [ws 1; tok "PublicKeyword" "public"]];
          functionBody statements]].

(** [contract <name> {], the members, [}] *)
Definition contractDefinition (name : string) (members : list Node) : Node :=
  NonterminalNode NonterminalKind.ContractDefinition
    [tok "ContractKeyword" "contract"; ws 1; tok "Identifier" name; ws 1;
     tok "OpenBrace" "{"; eol; nt "ContractMembers" members; closeBrace; eol].

Definition sourceUnit (contracts : list Node) : Node :=
  NonterminalNode NonterminalKind.SourceUnit
    [nt "SourceUnitMembers"
        (map (fun c => nt "SourceUnitMember" [c]) contracts)].

(** [    struct <name> { uint256 <field>; }] on one line, after the
    comment lines [comments] *)
Definition structDefinition (comments : list Node) (name field : string) : Node :=
  nt "ContractMember"
     [nt "StructDefinition"
         (comments ++
          [ws 4; tok "StructKeyword" "struct"; ws 1; tok "Identifier" name;
           ws 1; tok "OpenBrace" "{";
           nt "StructMembers" [uintDeclaration "StructMember" 1 field []];
           ws 1; closeBrace; eol])].

Definition tagComment : list Node :=
  [ws 4;
   TerminalNode TerminalKind.SingleLineNatSpecComment
     "/// @custom:storage-location erc7201:example.storage.Main";
   eol].

(** A contract without a namespace struct:
<<
contract Main {
    uint256 total;
    function bump() public { total += step; }
    function ping() public { done = ok; }
}
>> *)
Definition plainContract : Node :=
  contractDefinition "Main"
    [stateVariable "total";
     functionDefinition "bump" [assignment "total" "+=" "step"];
     functionDefinition "ping" [assignment "done" "=" "ok"]].

Definition plainTree : Node := sourceUnit [plainContract].

Definition plainDocument : TextDocument :=
  {| uri := "file:///Plain.sol"; getText := unparse plainTree |}.

(** A contract that owns a tagged namespace struct:
<<
contract Main {
    /// @custom:storage-location erc7201:example.storage.Main
    struct MainStorage { uint256 held; }
    uint256 total;
    uint256 count;
    function bump() public { total += count; }
}
>> *)
Definition taggedContract : Node :=
  contractDefinition "Main"
    [structDefinition tagComment "MainStorage" "held";
     stateVariable "total";
     stateVariable "count";
     functionDefinition "bump" [assignment "total" "+=" "count"]].

Definition taggedTree : Node := sourceUnit [taggedContract].

Definition taggedDocument : TextDocument :=
  {| uri := "file:///Tagged.sol"; getText := unparse taggedTree |}.

(** A contract whose tagged struct comes after another struct:
<<
contract Main {
    struct Point { uint256 px; }
    /// @custom:storage-location erc7201:example.storage.Main
    struct MainStorage { uint256 held; }
    uint256 total;
}
>> *)
Definition laterContract : Node :=
  contractDefinition "Main"
    [structDefinition [] "Point" "px";
     structDefinition tagComment "MainStorage" "held";
     stateVariable "total"].

Definition laterTree : Node := sourceUnit [laterContract].

Definition laterDocument : TextDocument :=
  {| uri := "file:///Later.sol"; getText := unparse laterTree |}.

(** Two contracts of the same name, the first with a syntax error (the
    parser keeps the text it could not parse as a leaf):
<<
contract Main {
    uint256 ;
}
contract Main {
    uint256 total;
}
>> *)
Definition brokenContract : Node :=
  contractDefinition "Main"
    [nt "ContractMember" [tok "Unrecognized" "    uint256 ;"; eol]].

Definition soundContract : Node :=
  contractDefinition "Main" [stateVariable "total"].

Definition twinTree : Node := sourceUnit [brokenContract; soundContract].

Definition twinDocument : TextDocument :=
  {| uri := "file:///Twin.sol"; getText := unparse twinTree |}.

(** The parser on the sample texts; any other text is reported invalid. *)
Definition parseTable : list (string * ParseOutput) :=
  map (fun t => (unparse t, {| isValid := true; tree := t |}))
      [plainTree; plainContract; taggedTree; taggedContract; laterTree;
       laterContract; twinTree; soundContract].

Definition demoParse (language : string) (kind : NonterminalKind.t)
  (text : string) : ParseOutput :=
  match find (fun entry => String.eqb (fst entry) text) parseTable with
  | Some entry => snd entry
  | None => {| isValid := false; tree := NonterminalNode kind [] |}
  end.

(** The name of a contract definition: its identifier leaf. *)
Definition demoName (n : Node) : string :=
  match n with
  | NonterminalNode _ children =>
      match find (isTerminalWithKind (TerminalKind.Other "Identifier")) children with
      | Some (TerminalNode _ text) => text
      | _ => ""
      end
  | TerminalNode _ _ => ""
  end.

Fixpoint positionFrom (ln ch offset : nat) (s : string) : Position :=
  match offset, s with
  | S k, String c s' =>
      if Ascii.eqb c "010"%char then positionFrom (S ln) 0 k s'
      else positionFrom ln (S ch) k s'
  | _, _ => {| line := ln; character := ch |}
  end.

(** Line and column of an offset of the document. *)
Definition positionAt (textDocument : TextDocument) (offset : nat) : Position :=
  positionFrom 0 0 offset (getText textDocument).

Definition demoCollaborators : Collaborators :=
  {| getSolidityVersion := fun _ => "0.8.20";
     parse := demoParse;
     contractDefinitionName := demoName;
     getNamespaceId := fun prefix contractName =>
                         (prefix ++ ".storage." ++ contractName)%string;
     printNamespaceTemplate := fun namespace =>
       ("struct " ++ ns_contractName namespace ++ "Storage { "
        ++ String.concat " " (map v_content (ns_variables namespace))
        ++ " }")%string;
     slangToVSCodeRange := fun textDocument r =>
       {| r_start := positionAt textDocument (tr_start r);
          r_end := positionAt textDocument (tr_end r) |} |}.

Definition at_ (l c : nat) : Position := {| line := l; character := c |}.

Definition variableAt (ln : nat) (name : string) : Variable_ :=
  {| v_name := name;
     v_content := "uint256 " ++ name ++ ";";
     v_range := {| r_start := at_ ln 4;
                   r_end := at_ ln (12 + String.length name + 1) |} |}.

End Demo.

(** ** Vocabulary of the further properties *)

(** [t] is [s] with characters put in: no character of [s] is taken away
    or changed. *)
Inductive Subseq : string -> string -> Prop :=
| Subseq_empty (t : string) : Subseq EmptyString t
| Subseq_keep (c : ascii) (s t : string) :
    Subseq s t -> Subseq (String c s) (String c t)
| Subseq_put (c : ascii) (s t : string) : Subseq s t -> Subseq s (String c t).

(** The number of positions of [s] at which [\bNAME\b] matches. *)
Fixpoint countMatches (name : string) (prev : option ascii) (s : string) : nat :=
  (if matchAt name prev s then 1 else 0)
  + match s with
    | EmptyString => 0
    | String c s' => countMatches name (Some c) s'
    end.

(** The text of a document within a range of offsets. *)
Definition textAt (r : TextRange) (s : string) : string :=
  take (tr_end r - tr_start r) (drop (tr_start r) s).

(** The text without its last character: [s.slice(0, -1)]. *)
Fixpoint withoutLast (s : string) : string :=
  match s with
  | EmptyString => EmptyString
  | String c s' =>
      match s' with
      | EmptyString => EmptyString
      | String _ _ => String c (withoutLast s')
      end
  end.

(** The children of a node in visiting order, the first of them starting
    at [offset]: the inner loop of [preorder]. *)
Fixpoint siblingsOrder (children : list Node) (offset : nat) : list Entry :=
  match children with
  | [] => []
  | c :: cs => preorder c offset ++ siblingsOrder cs (offset + String.length (unparse c))
  end.

(** A node that is visited under a root lies within the text of the root,
    and the text of the root at the place of the node is the text of the
    node. *)
Definition within (root : Node) (offset : nat) (x : Entry) : Prop :=
  offset <= snd x
  /\ snd x + String.length (unparse (fst x))
     <= offset + String.length (unparse root)
  /\ take (String.length (unparse (fst x))) (drop (snd x - offset) (unparse root))
     = unparse (fst x).



(** A document that holds nothing but a contract with a syntax error, and
    the collaborators for it: the parser hands over the tree with the
    unparsed text as a leaf and reports the errors.
<<
contract Main {
    uint256 ;
}
>> *)
Module Broken.

Definition brokenTree : Node := Demo.sourceUnit [Demo.brokenContract].

Definition brokenDocument : TextDocument :=
  {| uri := "file:///Broken.sol"; getText := unparse brokenTree |}.

Definition brokenParse (language : string) (kind : NonterminalKind.t)
  (text : string) : ParseOutput :=
  if String.eqb text (unparse brokenTree)
  then {| isValid := false; tree := brokenTree |}
  else {| isValid := false; tree := NonterminalNode kind [] |}.

Definition brokenCollaborators : Collaborators :=
  {| getSolidityVersion := fun _ => "0.8.20";
     parse := brokenParse;
     contractDefinitionName := Demo.demoName;
     getNamespaceId := fun prefix contractName =>
                         (prefix ++ ".storage." ++ contractName)%string;
     printNamespaceTemplate := fun namespace =>
       ("struct " ++ ns_contractName namespace ++ "Storage { "
        ++ String.concat " " (map v_content (ns_variables namespace))
        ++ " }")%string;
     slangToVSCodeRange := fun textDocument r =>
       {| r_start := Demo.positionAt textDocument (tr_start r);
          r_end := Demo.positionAt textDocument (tr_end r) |} |}.

End Broken.

(** * Properties *)

(** ** Strings *)

Section StringFacts.

Local Open Scope string_scope.

Lemma append_nil_r (s : string) : s ++ "" = s.
Proof. induction s as [|c s IH]; simpl; [reflexivity | now rewrite IH]. Qed.

Lemma append_assoc (a b c : string) : (a ++ b) ++ c = a ++ b ++ c.
Proof. induction a as [|x a IH]; simpl; [reflexivity | now rewrite IH]. Qed.

Lemma length_append (a b : string) :
  String.length (a ++ b) = String.length a + String.length b.
Proof. induction a as [|x a IH]; simpl; [reflexivity | now rewrite IH]. Qed.

Lemma length_take (n : nat) (s : string) :
  String.length (take n s) = Nat.min n (String.length s).
Proof.
  revert s; induction n as [|n IH]; intros [|c s]; simpl; try reflexivity.
  now rewrite IH.
Qed.

Lemma length_drop (n : nat) (s : string) :
  String.length (drop n s) = String.length s - n.
Proof.
  revert s; induction n as [|n IH]; intros [|c s]; simpl; try reflexivity.
  apply IH.
Qed.

Lemma take_app (a b : string) : take (String.length a) (a ++ b) = a.
Proof. induction a as [|x a IH]; simpl; [now destruct b | now rewrite IH]. Qed.

Lemma drop_app (a b : string) : drop (String.length a) (a ++ b) = b.
Proof. induction a as [|x a IH]; simpl; [reflexivity | exact IH]. Qed.

Lemma drop_app_le (n : nat) (a b : string) :
  n <= String.length a -> drop n (a ++ b) = drop n a ++ b.
Proof.
  revert a; induction n as [|n IH]; intros [|x a] H; simpl in *;
    try reflexivity; try lia.
  apply IH; lia.
Qed.

Lemma drop_all (s : string) : drop (String.length s) s = "".
Proof. induction s as [|c s IH]; simpl; [reflexivity | exact IH]. Qed.

Lemma take_all (s : string) : take (String.length s) s = s.
Proof. induction s as [|c s IH]; simpl; [reflexivity | now rewrite IH]. Qed.

Lemma startsWith_app (s pat : string) :
  startsWith s pat = true <-> exists rest, s = pat ++ rest.
Proof.
  revert s; induction pat as [|p pat IH]; intros s; simpl.
  - split; [intros _; now exists s | reflexivity].
  - destruct s as [|c s].
    + split; [discriminate | intros [rest H]; discriminate].
    + rewrite andb_true_iff, IH, Ascii.eqb_eq. split.
      * intros [-> [rest ->]]. now exists rest.
      * intros [rest H]. injection H as -> ->. split; [reflexivity | now exists rest].
Qed.


Lemma includes_app (s pat : string) :
  includes s pat = true <-> exists a b, s = a ++ pat ++ b.
Proof.
  induction s as [|c s IH].
  - simpl. rewrite orb_false_r, startsWith_app. split.
    + intros [rest H]. now exists "", rest.
    + intros [[|x a] [b H]]; [now exists b | discriminate].
  - cbn [includes]. rewrite orb_true_iff, IH, startsWith_app. split.
    + intros [[rest H] | [a [b H]]].
      * now exists "", rest.
      * exists (String c a), b. simpl. now rewrite H.
    + intros [[|x a] [b H]].
      * left. now exists b.
      * right. injection H as -> ->. now exists a, b.
Qed.

Lemma hasChar_app (c : ascii) (a b : string) :
  hasChar c (a ++ b) = hasChar c a || hasChar c b.
Proof.
  induction a as [|x a IH]; simpl; [reflexivity | now rewrite IH, orb_assoc].
Qed.

Lemma indexOfFrom_range (i : Z) (s : string) (c : ascii) :
  indexOfFrom i s c = (-1)%Z
  \/ (i <= indexOfFrom i s c < i + Z.of_nat (String.length s))%Z.
Proof.
  revert i; induction s as [|d s IH]; intros i; simpl; [now left |].
  destruct (Ascii.eqb d c); [right; lia |].
  destruct (IH (i + 1)%Z) as [H | H]; [now left | right; lia].
Qed.

Lemma indexOfFrom_app (i : Z) (a b : string) (c : ascii) :
  hasChar c a = false ->
  indexOfFrom i (a ++ String c b) c = (i + Z.of_nat (String.length a))%Z.
Proof.
  revert i; induction a as [|x a IH]; intros i H; simpl in *.
  - rewrite Ascii.eqb_refl. lia.
  - apply orb_false_iff in H as [Hx Ha]. rewrite Hx, (IH _ Ha). lia.
Qed.

Lemma indexOfFrom_none (i : Z) (s : string) (c : ascii) :
  (0 <= i)%Z -> (indexOfFrom i s c = (-1)%Z <-> hasChar c s = false).
Proof.
  revert i; induction s as [|d s IH]; intros i Hi; simpl; [tauto |].
  destruct (Ascii.eqb d c); simpl.
  - split; [lia | discriminate].
  - apply IH. lia.
Qed.

Lemma relativeIndex_inside (len i : Z) :
  (0 <= i <= len)%Z -> relativeIndex len i = i.
Proof.
  intros H. unfold relativeIndex. destruct (Z.ltb_spec i 0); lia.
Qed.

(** [slice] and [sliceFrom] around the index of an opening brace. *)
Lemma slice_before (a b : string) (c : ascii) :
  slice (a ++ String c b) 0 (Z.of_nat (String.length a)) = a.
Proof.
  unfold slice. rewrite !relativeIndex_inside
    by (rewrite length_append; simpl String.length; lia).
  rewrite Z.sub_0_r, Nat2Z.id. apply take_app.
Qed.

Lemma sliceFrom_after (a b : string) (c : ascii) :
  sliceFrom (a ++ String c b) (Z.of_nat (String.length a) + 1) = b.
Proof.
  unfold sliceFrom, slice. rewrite !relativeIndex_inside
    by (rewrite length_append; simpl String.length; lia).
  replace (Z.to_nat (Z.of_nat (String.length a) + 1))
    with (String.length (a ++ String c "")) by (rewrite length_append; simpl; lia).
  replace (a ++ String c b) with ((a ++ String c "") ++ b)
    by (now rewrite append_assoc).
  rewrite drop_app.
  replace (Z.to_nat _) with (String.length b)
    by (rewrite !length_append; simpl; lia).
  apply take_all.
Qed.

(** Cutting a text at [i] and behind [i] loses at most the character at
    [i], for every answer [indexOf] can give. *)
Lemma slice_lengths (s : string) (i : Z) :
  (-1 <= i < Z.of_nat (String.length s))%Z \/ i = (-1)%Z ->
  String.length s
  <= String.length (slice s 0 i) + String.length (sliceFrom s (i + 1)) + 1.
Proof.
  intros H. unfold sliceFrom, slice, relativeIndex.
  rewrite !length_take, !length_drop.
  destruct (Z.ltb_spec i 0); destruct (Z.ltb_spec (i + 1) 0);
    destruct (Z.ltb_spec (Z.of_nat (String.length s)) 0); simpl; lia.
Qed.

End StringFacts.

(** ** The word-boundary replacement *)

Section RegexFacts.

Local Open Scope string_scope.

Lemma app_eq_app (a b c d : string) :
  a ++ b = c ++ d ->
  (exists e, a = c ++ e /\ d = e ++ b)
  \/ (exists e, e <> "" /\ c = a ++ e /\ b = e ++ d).
Proof.
  revert c; induction a as [|x a IH]; intros c H; simpl in *.
  - destruct c as [|y c].
    + left. exists "". now simpl in *.
    + right. exists (String y c). repeat split; [discriminate | now simpl].
  - destruct c as [|y c]; simpl in *.
    + left. exists (String x a). now subst.
    + injection H as -> H. destruct (IH _ H) as [[e [-> ->]] | [e [He [-> ->]]]].
      * left. now exists e.
      * right. now exists e.
Qed.

Lemma lastOr_app (d : option ascii) (a b : string) :
  lastOr d (a ++ b) = lastOr (lastOr d a) b.
Proof. revert d; induction a as [|x a IH]; intros d; simpl; [reflexivity | apply IH]. Qed.

Lemma lastOr_nonempty (d e : option ascii) (s : string) :
  s <> "" -> lastOr d s = lastOr e s.
Proof. destruct s; [congruence | reflexivity]. Qed.

Lemma isWordAt_lastOr (d : option ascii) (s : string) :
  isWordAt d = false -> isWordAt (lastOr None s) = false ->
  isWordAt (lastOr d s) = false.
Proof. destruct s; simpl; auto. Qed.

Lemma string_snoc (s : string) :
  s = "" \/ exists s0 c, s = s0 ++ String c "".
Proof.
  induction s as [|x s IH]; [now left | right].
  destruct IH as [-> | [s0 [c ->]]].
  - now exists "", x.
  - now exists (String x s0), c.
Qed.

Lemma allWord_app (a b : string) :
  allWord (a ++ b) = allWord a && allWord b.
Proof.
  induction a as [|x a IH]; simpl; [reflexivity | now rewrite IH, andb_assoc].
Qed.

Lemma allWord_lastOr (d : option ascii) (s : string) :
  allWord s = true -> s <> "" -> isWordAt (lastOr d s) = true.
Proof.
  revert d; induction s as [|c s IH]; intros d H Hne; [congruence |].
  simpl in *. apply andb_true_iff in H as [Hc Hs].
  destruct s as [|c' s']; [exact Hc | apply IH; [exact Hs | discriminate]].
Qed.

Lemma allWord_first (s : string) :
  allWord s = true -> s <> "" -> isWordAt (first s) = true.
Proof.
  destruct s as [|c s]; [congruence | simpl].
  intros H _. now apply andb_true_iff in H as [Hc _].
Qed.

Lemma allWord_hasChar (c : ascii) (s : string) :
  allWord s = true -> isWord c = false -> hasChar c s = false.
Proof.
  induction s as [|x s IH]; simpl; [reflexivity |].
  intros H Hc. apply andb_true_iff in H as [Hx Hs]. rewrite (IH Hs Hc).
  destruct (Ascii.eqb_spec x c) as [-> | _]; [congruence | reflexivity].
Qed.

Lemma wordName_inv (name : string) :
  wordName name = true -> name <> "" /\ allWord name = true.
Proof.
  unfold wordName. intros H. apply andb_true_iff in H as [Hn Ha].
  split; [| exact Ha]. intros ->. discriminate.
Qed.

Lemma isWord_literal (c : ascii) : isWord c = true -> Ascii.eqb c "$" = false.
Proof.
  intros H. destruct (Ascii.eqb_spec c "$") as [-> | _]; [discriminate | reflexivity].
Qed.

Lemma literals_word (name : string) : allWord name = true -> literals name = name.
Proof.
  induction name as [|c name IH]; simpl; [reflexivity |].
  intros H. apply andb_true_iff in H as [Hc Hn].
  now rewrite (isWord_literal c Hc), IH.
Qed.

Lemma expandName_word (name : string) :
  allWord name = true -> expandName name = name.
Proof.
  induction name as [|c name IH]; simpl; [reflexivity |].
  intros H. apply andb_true_iff in H as [Hc Hn].
  now rewrite (isWord_literal c Hc), IH.
Qed.

Lemma matchName_word (name s rest : string) :
  allWord name = true ->
  (matchName name s = Some rest <-> s = name ++ rest).
Proof.
  revert s. induction name as [|c name IH]; intros s H; simpl.
  - split; [now intros [= ->] | now intros ->].
  - simpl in H. apply andb_true_iff in H as [Hc Hn].
    rewrite (isWord_literal c Hc). destruct s as [|d s].
    + split; discriminate.
    + destruct (Ascii.eqb_spec c d) as [-> | Hne].
      * rewrite (IH s Hn). split; [now intros -> | now intros [= ->]].
      * split; [discriminate | intros [= -> _]; congruence].
Qed.

Section OneName.

Variable name : string.
Hypothesis name_ok : wordName name = true.

Let name_nonempty : name <> "" := proj1 (wordName_inv name name_ok).
Let name_word : allWord name = true := proj2 (wordName_inv name name_ok).

(** [\bNAME\b] matches at a position exactly when the name stands there,
    after a non-word character (or the start) and before one (or the end). *)
Lemma matchAt_spec (prev : option ascii) (s : string) :
  matchAt name prev s = true <->
  isWordAt prev = false
  /\ exists post, s = name ++ post /\ isWordAt (first post) = false.
Proof.
  unfold matchAt, wordBoundary. rewrite (literals_word name name_word).
  rewrite (allWord_lastOr prev name name_word name_nonempty).
  assert (Hf : forall post, isWordAt (first (name ++ post)) = true).
  { intros post. destruct name; [congruence | simpl in *].
    now apply andb_true_iff in name_word as [Hc _]. }
  rewrite andb_true_iff. split.
  - intros [Hb He]. destruct (matchName name s) as [rest |] eqn:Hm;
      [| discriminate].
    apply (matchName_word name s rest name_word) in Hm. subst s.
    rewrite Hf in Hb. split.
    + now destruct (isWordAt prev).
    + exists rest. split; [reflexivity |]. now destruct (isWordAt (first rest)).
  - intros [Hp [post [-> Hpost]]]. rewrite Hf, Hp.
    rewrite (proj2 (matchName_word name (name ++ post) post name_word) eq_refl).
    now rewrite Hpost.
Qed.

Lemma matchAt_prev (p q : option ascii) (s : string) :
  isWordAt p = isWordAt q -> matchAt name p s = matchAt name q s.
Proof.
  intros H. unfold matchAt, wordBoundary.
  now rewrite H, (literals_word name name_word),
    (lastOr_nonempty p q name name_nonempty).
Qed.

Lemma matchAt_end (prev : option ascii) : matchAt name prev "" = false.
Proof.
  apply not_true_is_false. intros H.
  apply matchAt_spec in H as [_ [post [H _]]].
  destruct name; [congruence | discriminate].
Qed.

(** The equations of [scan] for a name of word characters. *)
Lemma scan_end (prev : option ascii) (k : nat) : scan name prev k "" = "".
Proof. simpl. now rewrite matchAt_end, andb_false_r. Qed.

Lemma scan_skip (prev : option ascii) (k : nat) (c : ascii) (s : string) :
  scan name prev (S k) (String c s) = scan name (Some c) k s.
Proof. reflexivity. Qed.

Lemma scan_here (prev : option ascii) (c : ascii) (s : string) :
  scan name prev 0 (String c s)
  = if matchAt name prev (String c s)
    then "$." ++ name ++ scan name (Some c) (String.length name - 1) s
    else String c (scan name (Some c) 0 s).
Proof.
  cbn [scan]. unfold replacementText.
  rewrite (literals_word name name_word), (expandName_word name name_word).
  destruct (matchAt name prev (String c s)); [| reflexivity].
  destruct name as [|x n]; [congruence |]. simpl String.length.
  replace (S (String.length n) - 1) with (String.length n) by lia.
  reflexivity.
Qed.

Lemma matchesFrom_spec (prev : option ascii) (s : string) :
  matchesFrom name prev s = true <->
  exists pre post,
    s = pre ++ name ++ post
    /\ isWordAt (lastOr prev pre) = false
    /\ isWordAt (first post) = false.
Proof.
  revert prev; induction s as [|c s IH]; intros prev.
  - cbn [matchesFrom]. rewrite orb_false_r, matchAt_spec. split.
    + intros [Hp [post [H Hpost]]]. now exists "", post.
    + intros [[|x pre] [post [H [Hp Hpost]]]]; [| discriminate].
      split; [exact Hp | now exists post].
  - cbn [matchesFrom]. rewrite orb_true_iff, matchAt_spec, IH. split.
    + intros [[Hp [post [H Hpost]]] | [pre [post [H [Hp Hpost]]]]].
      * now exists "", post.
      * exists (String c pre), post. simpl. now rewrite H.
    + intros [[|x pre] [post [H [Hp Hpost]]]].
      * left. split; [exact Hp | now exists post].
      * right. simpl in H. injection H as -> ->. now exists pre, post.
Qed.

Lemma matchesFrom_prev (p q : option ascii) (s : string) :
  isWordAt p = isWordAt q -> matchesFrom name p s = matchesFrom name q s.
Proof.
  intros H. destruct s as [|c s]; cbn [matchesFrom]; now rewrite (matchAt_prev p q).
Qed.

Lemma occursWord_matches (text : string) :
  occursWord name text <-> matchesFrom name None text = true.
Proof. unfold occursWord. now rewrite matchesFrom_spec. Qed.

(** A position in [a] matches in [a ++ b] exactly when it matches in [a],
    unless a word runs across the seam. *)
Lemma matchAt_app (prev : option ascii) (a b : string) :
  a <> "" ->
  isWordAt (lastOr prev a) = false \/ isWordAt (first b) = false ->
  matchAt name prev (a ++ b) = matchAt name prev a.
Proof.
  intros Ha Hseam. apply eq_true_iff_eq. rewrite !matchAt_spec. split.
  - intros [Hp [post [H Hpost]]]. split; [exact Hp |].
    apply app_eq_app in H as [[e [-> ->]] | [e [He [-> ->]]]].
    + exists e. split; [reflexivity |].
      destruct e as [|x e]; [reflexivity | exact Hpost].
    + exfalso. rewrite allWord_app in name_word.
      apply andb_true_iff in name_word as [Hwa Hwe].
      rewrite (allWord_lastOr prev a Hwa Ha) in Hseam.
      destruct e as [|x e]; [congruence |]. simpl in *.
      apply andb_true_iff in Hwe as [Hx _]. rewrite Hx in Hseam.
      now destruct Hseam.
  - intros [Hp [post [-> Hpost]]]. split; [exact Hp |].
    exists (post ++ b). rewrite append_assoc. split; [reflexivity |].
    destruct post as [|x post]; [| exact Hpost]. simpl.
    rewrite append_nil_r in Hseam.
    rewrite (allWord_lastOr prev name name_word name_nonempty) in Hseam.
    now destruct Hseam.
Qed.

Lemma matchAt_nonword (prev : option ascii) (c : ascii) (s : string) :
  isWord c = false -> matchAt name prev (String c s) = false.
Proof.
  intros Hc. apply not_true_is_false. intros H.
  apply matchAt_spec in H as [_ [post [H _]]].
  destruct name as [|x n]; [congruence |]. simpl in *.
  injection H as -> _. apply andb_true_iff in name_word as [Hx _]. congruence.
Qed.

Lemma matchesFrom_nonword (prev : option ascii) (c : ascii) (s : string) :
  isWord c = false ->
  matchesFrom name prev (String c s) = matchesFrom name (Some c) s.
Proof.
  intros Hc. change (matchesFrom name prev (String c s))
    with (matchAt name prev (String c s) || matchesFrom name (Some c) s).
  now rewrite (matchAt_nonword prev c s Hc).
Qed.

Lemma matchAt_inside (prev : option ascii) (s : string) :
  isWordAt prev = true -> matchAt name prev s = false.
Proof.
  intros Hp. apply not_true_is_false. intros H.
  apply matchAt_spec in H as [H _]. congruence.
Qed.

Lemma matchAt_length (prev : option ascii) (s : string) :
  matchAt name prev s = true -> String.length name <= String.length s.
Proof.
  intros H. apply matchAt_spec in H as [_ [post [-> _]]].
  rewrite length_append. lia.
Qed.

(** The replaced text is never shorter than what was scanned. *)
Lemma scan_length (prev : option ascii) (k : nat) (s : string) :
  String.length s <= String.length (scan name prev k s) + k.
Proof.
  revert prev k; induction s as [|c s IH]; intros prev k; [simpl; lia |].
  destruct k as [|k].
  - rewrite scan_here. destruct (matchAt name prev (String c s)).
    + simpl. rewrite length_append.
      specialize (IH (Some c) (String.length name - 1)). lia.
    + simpl. specialize (IH (Some c) 0). lia.
  - rewrite scan_skip. specialize (IH (Some c) k). simpl. lia.
Qed.

Lemma scan_fixed (prev : option ascii) (s : string) :
  matchesFrom name prev s = false -> scan name prev 0 s = s.
Proof.
  revert prev; induction s as [|c s IH]; intros prev H; [apply scan_end |].
  cbn [matchesFrom] in H. apply orb_false_iff in H as [Hm Hs].
  rewrite scan_here. now rewrite Hm, (IH _ Hs).
Qed.

Lemma scan_grows (prev : option ascii) (s : string) :
  matchesFrom name prev s = true ->
  String.length s < String.length (scan name prev 0 s).
Proof.
  revert prev; induction s as [|c s IH]; intros prev H.
  - cbn [matchesFrom] in H. now rewrite orb_false_r, matchAt_end in H.
  - cbn [matchesFrom] in H. rewrite scan_here.
    destruct (matchAt name prev (String c s)) eqn:Hm.
    + simpl. rewrite length_append.
      pose proof (scan_length (Some c) (String.length name - 1) s). lia.
    + simpl in H. specialize (IH _ H). simpl. lia.
Qed.

Lemma scan_skip_all (prev : option ascii) (k : nat) (s : string) :
  String.length s <= k -> scan name prev k s = "".
Proof.
  revert prev k; induction s as [|c s IH]; intros prev k H; [apply scan_end |].
  simpl in H. destruct k as [|k]; [lia |]. rewrite scan_skip. apply IH. lia.
Qed.

Lemma scan_prev (p q : option ascii) (k : nat) (s : string) :
  isWordAt p = isWordAt q -> scan name p k s = scan name q k s.
Proof.
  intros H. destruct s as [|c s]; [now rewrite !scan_end |].
  destruct k; [| reflexivity]. now rewrite !scan_here, (matchAt_prev p q).
Qed.

(** Replacing in [a ++ b] is replacing in [a] and in [b], unless a word
    runs across the seam. *)
Lemma scan_app (prev : option ascii) (k : nat) (a b : string) :
  k <= String.length a ->
  isWordAt (lastOr prev a) = false \/ isWordAt (first b) = false ->
  scan name prev k (a ++ b)
  = scan name prev k a ++ scan name (lastOr prev a) 0 b.
Proof.
  revert prev k; induction a as [|c a IH]; intros prev k Hk Hseam.
  - simpl in Hk. replace k with 0 by lia. now rewrite scan_end.
  - change (String c a ++ b) with (String c (a ++ b)).
    destruct k as [|k].
    + rewrite !scan_here.
      change (String c (a ++ b)) with (String c a ++ b).
      rewrite (matchAt_app prev (String c a) b) by (discriminate || exact Hseam).
      destruct (matchAt name prev (String c a)) eqn:Hm.
      * rewrite IH; [now rewrite !append_assoc | | exact Hseam].
        apply matchAt_length in Hm. simpl in Hm. lia.
      * rewrite IH; [reflexivity | lia | exact Hseam].
    + rewrite !scan_skip. rewrite IH; [reflexivity | simpl in Hk; lia | exact Hseam].
Qed.

Lemma matchesFrom_app (prev : option ascii) (a b : string) :
  isWordAt (lastOr prev a) = false \/ isWordAt (first b) = false ->
  matchesFrom name prev (a ++ b)
  = matchesFrom name prev a || matchesFrom name (lastOr prev a) b.
Proof.
  revert prev; induction a as [|c a IH]; intros prev Hseam.
  - simpl "++". cbn [matchesFrom lastOr]. now rewrite matchAt_end.
  - change (String c a ++ b) with (String c (a ++ b)). cbn [matchesFrom].
    change (String c (a ++ b)) with (String c a ++ b).
    rewrite (matchAt_app prev (String c a) b) by (discriminate || exact Hseam).
    rewrite IH by exact Hseam. now rewrite orb_assoc.
Qed.

(** A run of word characters that starts at a boundary is left alone, or
    it is the name and gets its prefix. *)
Lemma scan_inside (prev : option ascii) (s : string) :
  allWord s = true -> isWordAt prev = true -> scan name prev 0 s = s.
Proof.
  revert prev; induction s as [|c s IH]; intros prev Hs Hp; [apply scan_end |].
  rewrite scan_here, (matchAt_inside prev _ Hp).
  simpl in Hs. apply andb_true_iff in Hs as [Hc Hs]. now rewrite IH.
Qed.

Lemma scan_run (prev : option ascii) (v : string) :
  allWord v = true -> v <> "" ->
  exists x, scan name prev 0 v = x ++ v /\ (x = "" \/ x = "$.").
Proof.
  intros Hv Hne. destruct v as [|c v]; [congruence |]. rewrite scan_here.
  destruct (matchAt name prev (String c v)) eqn:Hm.
  - apply matchAt_spec in Hm as [_ [post [H Hpost]]].
    assert (post = "") as ->.
    { rewrite H, allWord_app in Hv. apply andb_true_iff in Hv as [_ Hv].
      destruct post as [|x post]; [reflexivity |]. simpl in *.
      apply andb_true_iff in Hv as [Hx _]. congruence. }
    rewrite append_nil_r in H. exists "$.". split; [| now right].
    rewrite scan_skip_all.
    + now rewrite append_nil_r, <- H.
    + rewrite <- H. simpl. lia.
  - exists "". split; [| now left]. simpl.
    simpl in Hv. apply andb_true_iff in Hv as [Hc Hv].
    now rewrite scan_inside.
Qed.

Lemma scan_first (prev : option ascii) (s : string) :
  isWordAt (first s) = false ->
  isWordAt (first (scan name prev 0 s)) = false.
Proof.
  destruct s as [|c s]; [now rewrite scan_end |]. intros Hc. simpl in Hc.
  now rewrite scan_here, (matchAt_nonword prev c s Hc).
Qed.

Lemma scan_last (prev d : option ascii) (s : string) :
  isWordAt d = false ->
  isWordAt (lastOr d s) = false ->
  isWordAt (lastOr d (scan name prev 0 s)) = false.
Proof.
  intros Hd Hs. destruct (string_snoc s) as [-> | [s0 [c ->]]];
    [now rewrite scan_end |].
  rewrite lastOr_app in Hs. simpl in Hs.
  rewrite scan_app by (lia || now right).
  rewrite scan_here, (matchAt_nonword _ c "" Hs), scan_end.
  now rewrite lastOr_app.
Qed.

Lemma scan_hasChar (c : ascii) (prev : option ascii) (k : nat) (s : string) :
  isWord c = false -> c <> "$"%char -> c <> "."%char ->
  hasChar c s = false -> hasChar c (scan name prev k s) = false.
Proof.
  intros Hc Hd Hp. revert prev k; induction s as [|x s IH]; intros prev k H;
    [now rewrite scan_end |].
  simpl in H. apply orb_false_iff in H as [Hx Hs].
  destruct k as [|k]; [| rewrite scan_skip; now apply IH].
  rewrite scan_here. destruct (matchAt name prev (String x s)).
  - change ("$." ++ name ++ scan name (Some x) (String.length name - 1) s)
      with (String "$" (String "." (name ++ scan name (Some x) (String.length name - 1) s))).
    cbn [hasChar]. rewrite hasChar_app, (allWord_hasChar c name name_word Hc).
    rewrite (IH _ _ Hs).
    destruct (Ascii.eqb_spec "$"%char c); [congruence |].
    destruct (Ascii.eqb_spec "."%char c); [congruence | reflexivity].
  - cbn [hasChar]. now rewrite Hx, (IH _ _ Hs).
Qed.

End OneName.

Lemma matchName_end (name rest : string) :
  matchName name "" = Some rest -> rest = "" /\ literals name = "".
Proof.
  induction name as [|c name IH]; simpl.
  - now intros [= <-].
  - destruct (Ascii.eqb c "$"); [exact IH | discriminate].
Qed.

(** A name with [$] in it can only match up to the end of the input. *)
Lemma matchName_dollar (name s rest : string) :
  hasChar "$" name = true ->
  matchName name s = Some rest ->
  rest = "" /\ forall d, lastOr d s = lastOr d (literals name).
Proof.
  revert s. induction name as [|c name IH]; intros s Hd; [discriminate |].
  simpl in Hd |- *. destruct (Ascii.eqb c "$") eqn:Hc.
  - destruct s as [|x s]; [| discriminate]. intros H.
    apply matchName_end in H as [-> Hl]. now rewrite Hl.
  - simpl in Hd. destruct s as [|x s]; [discriminate |].
    destruct (Ascii.eqb_spec c x) as [-> | _]; [| discriminate].
    intros H. destruct (IH s Hd H) as [-> Hlast]. split; [reflexivity |].
    intros d. simpl. apply Hlast.
Qed.

Lemma matchAt_dollar (name : string) (prev : option ascii) (s : string) :
  hasChar "$" name = true ->
  matchAt name prev s = true -> isWordAt (lastOr prev s) = true.
Proof.
  intros Hd H. unfold matchAt in H. apply andb_true_iff in H as [_ H].
  destruct (matchName name s) as [rest |] eqn:Hm; [| discriminate].
  destruct (matchName_dollar name s rest Hd Hm) as [-> Hlast].
  rewrite Hlast. unfold wordBoundary in H. simpl in H.
  now rewrite xorb_false_r in H.
Qed.

Lemma scan_dollar (name : string) (prev : option ascii) (s : string) :
  hasChar "$" name = true ->
  isWordAt (lastOr prev s) = false -> scan name prev 0 s = s.
Proof.
  intros Hd. revert prev. induction s as [|c s IH]; intros prev Hlast.
  - cbn [scan]. destruct (matchAt name prev "") eqn:Hm; [| reflexivity].
    apply (matchAt_dollar name prev "" Hd) in Hm. simpl in Hm, Hlast. congruence.
  - cbn [scan]. destruct (matchAt name prev (String c s)) eqn:Hm.
    + apply (matchAt_dollar name prev _ Hd) in Hm. congruence.
    + now rewrite (IH (Some c) Hlast).
Qed.

End RegexFacts.

(** ** Rewriting one function body *)

Section BodyFacts.

Local Open Scope string_scope.

Lemma rewriteFunctionText_unfold (contractName : string)
  (variables : list Variable_) (functionText : string) :
  rewriteFunctionText contractName variables functionText
  = let replacement := replaceVariables variables functionText in
    if negb (String.eqb replacement functionText)
       && negb (includes replacement (expectedLine contractName))
    then withAccessorLine contractName replacement
    else replacement.
Proof. reflexivity. Qed.

Lemma replaceVariables_cons (v : Variable_) (vs : list Variable_) (text : string) :
  replaceVariables (v :: vs) text
  = replaceVariables vs (replaceWord (v_name v) text).
Proof. reflexivity. Qed.

Lemma wordNames_cons (v : Variable_) (vs : list Variable_) :
  wordNames (v :: vs) -> wordName (v_name v) = true /\ wordNames vs.
Proof.
  intros H. split; [apply H; now left | intros w Hw; apply H; now right].
Qed.

Lemma replaceVariables_length (variables : list Variable_) (text : string) :
  wordNames variables ->
  String.length text <= String.length (replaceVariables variables text).
Proof.
  revert text. induction variables as [|v vs IH]; intros text Hw; [simpl; lia |].
  apply wordNames_cons in Hw as [Hv Hvs]. rewrite replaceVariables_cons.
  specialize (IH (replaceWord (v_name v) text) Hvs).
  pose proof (scan_length (v_name v) Hv None 0 text). unfold replaceWord in *. lia.
Qed.

(** The replacements leave a text as it is exactly when no variable has a
    match in it. *)
Lemma replaceVariables_fixed (variables : list Variable_) (text : string) :
  wordNames variables ->
  (replaceVariables variables text = text <-> referenced variables text = false).
Proof.
  revert text. induction variables as [|v vs IH]; intros text Hw.
  - simpl. tauto.
  - apply wordNames_cons in Hw as [Hv Hvs]. rewrite replaceVariables_cons.
    cbn [referenced existsb]. fold (referenced vs text).
    rewrite orb_false_iff. split.
    + intros H. destruct (matchesFrom (v_name v) None text) eqn:Hm.
      * exfalso. apply (scan_grows _ Hv) in Hm.
        pose proof (replaceVariables_length vs (replaceWord (v_name v) text) Hvs)
          as Hl.
        rewrite H in Hl. unfold replaceWord in Hl. lia.
      * split; [reflexivity |]. unfold replaceWord in H.
        rewrite (scan_fixed _ Hv _ _ Hm) in H. now apply IH.
    + intros [Hm Hr]. unfold replaceWord. rewrite (scan_fixed _ Hv _ _ Hm).
      now apply IH.
Qed.

Lemma referenced_spec (variables : list Variable_) (text : string) :
  wordNames variables ->
  (referenced variables text = true
   <-> exists v, In v variables /\ occursWord (v_name v) text).
Proof.
  intros Hw. unfold referenced. rewrite existsb_exists. split.
  - intros [v [Hin Hm]]. exists v. split; [exact Hin |].
    now apply (occursWord_matches _ (Hw v Hin)).
  - intros [v [Hin Ho]]. exists v. split; [exact Hin |].
    now apply (occursWord_matches _ (Hw v Hin)).
Qed.

Lemma referenced_none (variables : list Variable_) (text : string) :
  wordNames variables ->
  (referenced variables text = false
   <-> forall v, In v variables -> ~ occursWord (v_name v) text).
Proof.
  intros Hw. split.
  - intros H v Hin Ho.
    assert (referenced variables text = true)
      by (apply referenced_spec; [exact Hw | now exists v]).
    congruence.
  - intros H. apply not_true_is_false. intros Hr.
    apply referenced_spec in Hr as [v [Hin Ho]]; [| exact Hw].
    exact (H v Hin Ho).
Qed.

(** A whole-word occurrence of [v] is still one after the occurrences of
    [w] got their prefix, also when [w] is [v] itself. *)
Lemma occursWord_replaceWord (v w text : string) :
  wordName v = true -> wordName w = true ->
  occursWord v text -> occursWord v (replaceWord w text).
Proof.
  intros Hv Hw [pre [post [-> [Hpre Hpost]]]].
  destruct (wordName_inv v Hv) as [Hne Hall].
  unfold replaceWord.
  rewrite (scan_app w Hw) by (lia || now left).
  rewrite (scan_app w Hw _ _ v post) by (lia || now right).
  destruct (scan_run w Hw (lastOr None pre) v Hall Hne) as [x [-> Hx]].
  exists (scan w None 0 pre ++ x), (scan w (lastOr (lastOr None pre) v) 0 post).
  split; [now rewrite !append_assoc |]. split.
  - rewrite lastOr_app. destruct Hx as [-> | ->]; [| reflexivity].
    simpl. now apply (scan_last w Hw).
  - now apply (scan_first w Hw).
Qed.

Lemma occursWord_replaceVariables (v : string) (variables : list Variable_)
  (text : string) :
  wordName v = true -> wordNames variables ->
  occursWord v text -> occursWord v (replaceVariables variables text).
Proof.
  intros Hv. revert text. induction variables as [|w ws IH]; intros text Hw Ho;
    [exact Ho |].
  apply wordNames_cons in Hw as [Hw Hws]. rewrite replaceVariables_cons.
  apply IH; [exact Hws |]. now apply occursWord_replaceWord.
Qed.

Lemma hasChar_split (c : ascii) (s : string) :
  hasChar c s = true ->
  exists a b, s = a ++ String c b /\ hasChar c a = false.
Proof.
  induction s as [|x s IH]; [discriminate |]. simpl.
  destruct (Ascii.eqb_spec x c) as [-> | Hx]; simpl.
  - intros _. now exists "", s.
  - intros H. destruct (IH H) as [a [b [-> Ha]]].
    exists (String x a), b. split; [reflexivity |]. simpl.
    destruct (Ascii.eqb_spec x c); [congruence | exact Ha].
Qed.

Lemma accessorInsertion_last (d : option ascii) (contractName : string) :
  lastOr d (accessorInsertion contractName) = Some "010"%char.
Proof.
  unfold accessorInsertion. now rewrite !lastOr_app.
Qed.

Lemma withAccessorLine_brace (contractName a b : string) :
  hasChar "{" a = false ->
  withAccessorLine contractName (a ++ String "{" b)
  = a ++ "{" ++ accessorInsertion contractName ++ b.
Proof.
  intros Ha. unfold withAccessorLine, indexOf.
  rewrite (indexOfFrom_app 0 a b "{" Ha). simpl Z.add at 1.
  rewrite slice_before. replace (0 + Z.of_nat (String.length a) + 1)%Z
    with (Z.of_nat (String.length a) + 1)%Z by lia.
  rewrite sliceFrom_after. unfold accessorInsertion.
  now rewrite !append_assoc.
Qed.

Lemma sliceFrom_zero (s : string) : sliceFrom s 0 = s.
Proof.
  unfold sliceFrom, slice. rewrite !relativeIndex_inside by lia.
  rewrite Z.sub_0_r, Nat2Z.id. simpl. apply take_all.
Qed.

Lemma withAccessorLine_nobrace (contractName r : string) :
  hasChar "{" r = false ->
  withAccessorLine contractName r
  = (slice r 0 (-1) ++ "{" ++ accessorInsertion contractName) ++ r.
Proof.
  intros Hr. unfold withAccessorLine, indexOf.
  rewrite (proj2 (indexOfFrom_none 0 r "{" (Z.le_refl 0)) Hr).
  simpl Z.add. rewrite sliceFrom_zero. unfold accessorInsertion.
  now rewrite !append_assoc.
Qed.

(** Putting the accessor line in keeps every whole-word occurrence. *)
Lemma matchesFrom_withAccessorLine (v contractName r : string) :
  wordName v = true ->
  matchesFrom v None r = true ->
  matchesFrom v None (withAccessorLine contractName r) = true.
Proof.
  intros Hv Hm. destruct (hasChar "{" r) eqn:Hb.
  - apply hasChar_split in Hb as [a [b [-> Ha]]].
    rewrite withAccessorLine_brace by exact Ha.
    rewrite (matchesFrom_app v Hv) in Hm by now right.
    change (a ++ "{" ++ accessorInsertion contractName ++ b)
      with (a ++ String "{" (accessorInsertion contractName ++ b)).
    rewrite (matchesFrom_app v Hv) by now right.
    apply orb_true_iff in Hm as [Hm | Hm]; [now rewrite Hm |].
    apply orb_true_iff. right.
    rewrite (matchesFrom_nonword v Hv) in Hm |- * by reflexivity.
    rewrite (matchesFrom_app v Hv)
      by (left; now rewrite accessorInsertion_last).
    rewrite accessorInsertion_last.
    rewrite (matchesFrom_prev v Hv (Some "010"%char) (Some "{"%char)) by reflexivity.
    rewrite Hm. apply orb_true_r.
  - rewrite withAccessorLine_nobrace by exact Hb.
    rewrite (matchesFrom_app v Hv).
    + rewrite !lastOr_app, accessorInsertion_last.
      rewrite (matchesFrom_prev v Hv (Some "010"%char) None) by reflexivity.
      rewrite Hm. apply orb_true_r.
    + left. now rewrite !lastOr_app, accessorInsertion_last.
Qed.

Lemma withAccessorLine_length (contractName r : string) :
  String.length r < String.length (withAccessorLine contractName r).
Proof.
  unfold withAccessorLine. set (i := indexOf r "{").
  assert (Hi : (-1 <= i < Z.of_nat (String.length r))%Z \/ i = (-1)%Z).
  { unfold i, indexOf. destruct (indexOfFrom_range 0 r "{"); [now right | left; lia]. }
  pose proof (slice_lengths r i Hi).
  rewrite !length_append. simpl String.length. lia.
Qed.

(** The text computed for a body is the body exactly when no variable has
    a match in it. *)
Lemma rewriteFunctionText_fixed (contractName : string)
  (variables : list Variable_) (functionText : string) :
  wordNames variables ->
  (rewriteFunctionText contractName variables functionText = functionText
   <-> referenced variables functionText = false).
Proof.
  intros Hw. rewrite rewriteFunctionText_unfold. cbv zeta.
  rewrite <- (replaceVariables_fixed variables functionText Hw).
  destruct (String.eqb_spec (replaceVariables variables functionText) functionText)
    as [He | Hne]; simpl.
  - rewrite He. tauto.
  - split; [| intros H; congruence].
    destruct (includes _ _); simpl; [tauto |]. intros H. exfalso.
    pose proof (withAccessorLine_length contractName
                  (replaceVariables variables functionText)) as Hl.
    pose proof (replaceVariables_length variables functionText Hw).
    rewrite H in Hl. lia.
Qed.

(** A body that references a variable still does after it was rewritten. *)
Lemma referenced_rewriteFunctionText (contractName : string)
  (variables : list Variable_) (functionText : string) :
  wordNames variables ->
  referenced variables functionText = true ->
  referenced variables (rewriteFunctionText contractName variables functionText)
  = true.
Proof.
  intros Hw Hr. apply referenced_spec in Hr as [v [Hin Ho]]; [| exact Hw].
  pose proof (Hw v Hin) as Hv.
  apply (occursWord_replaceVariables _ variables _ Hv Hw) in Ho.
  apply (occursWord_matches _ Hv) in Ho.
  unfold referenced. apply existsb_exists. exists v. split; [exact Hin |].
  rewrite rewriteFunctionText_unfold. cbv zeta.
  destruct (_ && _); [| exact Ho].
  now apply matchesFrom_withAccessorLine.
Qed.



Lemma replaceVariables_hasChar (variables : list Variable_) (a : string) :
  wordNames variables ->
  hasChar "{" a = false -> hasChar "{" (replaceVariables variables a) = false.
Proof.
  revert a. induction variables as [|v vs IH]; intros a Hw Ha; [exact Ha |].
  apply wordNames_cons in Hw as [Hv Hvs]. rewrite replaceVariables_cons.
  apply IH; [exact Hvs |]. unfold replaceWord.
  apply (scan_hasChar _ Hv); (reflexivity || discriminate || exact Ha).
Qed.

(** Names with a [$] in them take no part in the rewriting of a text that
    ends outside a word. *)
Lemma identifier_cases (name : string) :
  identifier name = true -> hasChar "$" name = true \/ wordName name = true.
Proof.
  unfold identifier, wordName. intros H. apply andb_true_iff in H as [Hne Hall].
  destruct (hasChar "$" name) eqn:Hd; [now left | right].
  rewrite Hne. simpl. clear Hne.
  induction name as [|c name IH]; [reflexivity |].
  simpl in *. apply andb_true_iff in Hall as [Hc Hall].
  apply orb_false_iff in Hd as [Hcd Hd].
  rewrite Hcd, orb_false_r in Hc. rewrite Hc. now apply IH.
Qed.

Lemma wordNames_dollarFree (variables : list Variable_) :
  identifierNames variables -> wordNames (dollarFree variables).
Proof.
  intros Hid v Hv. unfold dollarFree in Hv. apply filter_In in Hv as [Hin Hd].
  apply negb_true_iff in Hd.
  destruct (identifier_cases _ (Hid v Hin)) as [H | H]; [congruence | exact H].
Qed.

Lemma identifierNames_cons (v : Variable_) (vs : list Variable_) :
  identifierNames (v :: vs) -> identifier (v_name v) = true /\ identifierNames vs.
Proof.
  intros H. split; [apply H; now left | intros w Hw; apply H; now right].
Qed.

Lemma replaceWord_ends (name text : string) :
  wordName name = true ->
  endsOutsideWord text -> endsOutsideWord (replaceWord name text).
Proof.
  intros Hn H. unfold endsOutsideWord, replaceWord.
  now apply (scan_last name Hn).
Qed.

Lemma replaceVariables_ends (variables : list Variable_) (text : string) :
  wordNames variables ->
  endsOutsideWord text -> endsOutsideWord (replaceVariables variables text).
Proof.
  revert text. induction variables as [|v vs IH]; intros text Hw H; [exact H |].
  apply wordNames_cons in Hw as [Hv Hvs]. rewrite replaceVariables_cons.
  apply IH; [exact Hvs |]. now apply replaceWord_ends.
Qed.

Lemma replaceVariables_dollarFree (variables : list Variable_) (text : string) :
  identifierNames variables -> endsOutsideWord text ->
  replaceVariables variables text = replaceVariables (dollarFree variables) text.
Proof.
  revert text. induction variables as [|v vs IH]; intros text Hid Hend;
    [reflexivity |].
  apply identifierNames_cons in Hid as [Hv Hvs]. rewrite replaceVariables_cons.
  unfold dollarFree. cbn [filter]. fold (dollarFree vs).
  destruct (hasChar "$" (v_name v)) eqn:Hd; cbn [negb].
  - unfold replaceWord. rewrite (scan_dollar _ None text Hd Hend). now apply IH.
  - rewrite replaceVariables_cons.
    destruct (identifier_cases _ Hv) as [H | H]; [congruence |].
    apply IH; [exact Hvs |]. now apply replaceWord_ends.
Qed.

Lemma rewriteFunctionText_dollarFree (contractName : string)
  (variables : list Variable_) (text : string) :
  identifierNames variables -> endsOutsideWord text ->
  rewriteFunctionText contractName variables text
  = rewriteFunctionText contractName (dollarFree variables) text.
Proof.
  intros Hid Hend. rewrite !rewriteFunctionText_unfold. cbv zeta.
  now rewrite (replaceVariables_dollarFree variables text Hid Hend).
Qed.

Lemma withAccessorLine_ends (contractName r : string) :
  endsOutsideWord r -> endsOutsideWord (withAccessorLine contractName r).
Proof.
  unfold endsOutsideWord. intros H. destruct (hasChar "{" r) eqn:Hb.
  - apply hasChar_split in Hb as [a [b [-> Ha]]].
    rewrite withAccessorLine_brace by exact Ha.
    rewrite lastOr_app in H. cbn [lastOr] in H.
    change (a ++ "{" ++ accessorInsertion contractName ++ b)
      with (a ++ String "{" (accessorInsertion contractName ++ b)).
    rewrite lastOr_app. cbn [lastOr]. rewrite lastOr_app, accessorInsertion_last.
    destruct b; [reflexivity | exact H].
  - rewrite withAccessorLine_nobrace by exact Hb.
    rewrite !lastOr_app, accessorInsertion_last.
    destruct r; [reflexivity | exact H].
Qed.

Lemma rewriteFunctionText_ends (contractName : string)
  (variables : list Variable_) (text : string) :
  wordNames variables ->
  endsOutsideWord text ->
  endsOutsideWord (rewriteFunctionText contractName variables text).
Proof.
  intros Hw H. rewrite rewriteFunctionText_unfold. cbv zeta.
  destruct (_ && _); [apply withAccessorLine_ends |];
    now apply replaceVariables_ends.
Qed.













End BodyFacts.

(** ** Cursors and the two loops *)

Section CursorFacts.

Context {collaborators : Collaborators}.

Lemma seek_find (p : Node -> bool) (q : Entry -> bool) (l : list Entry) :
  (forall x, q x = true -> p (fst x) = true) ->
  match seek p l with
  | Some (e, rest) =>
      p (fst e) = true /\ find q l = find q (e :: rest)
      /\ List.length rest < List.length l
  | None => find q l = None
  end.
Proof.
  intros Hq. induction l as [|x l IH]; simpl; [reflexivity |].
  destruct (p (fst x)) eqn:Hp.
  - repeat split; [exact Hp | lia].
  - assert (Hx : q x = false).
    { destruct (q x) eqn:Hx; [| reflexivity]. apply Hq in Hx. congruence. }
    rewrite Hx. destruct (seek p l) as [[e rest] |]; [| exact IH].
    destruct IH as [He [Hf Hl]]. repeat split; [exact He | exact Hf | lia].
Qed.

Lemma seek_filter (p : Node -> bool) (l : list Entry) :
  match seek p l with
  | Some (e, rest) =>
      filter (fun x => p (fst x)) l = e :: filter (fun x => p (fst x)) rest
      /\ List.length rest < List.length l
  | None => filter (fun x => p (fst x)) l = []
  end.
Proof.
  induction l as [|x l IH]; simpl; [reflexivity |].
  destruct (p (fst x)) eqn:Hp.
  - split; [reflexivity | lia].
  - destruct (seek p l) as [[e rest] |]; [| exact IH].
    destruct IH as [Hf Hl]. split; [exact Hf | lia].
Qed.

Lemma seek_split (p : Node -> bool) (l : list Entry) (e : Entry)
  (rest : list Entry) :
  seek p l = Some (e, rest) ->
  exists pre,
    l = pre ++ e :: rest
    /\ (forall x, In x pre -> p (fst x) = false)
    /\ p (fst e) = true.
Proof.
  induction l as [|x l IH]; simpl; [discriminate |].
  destruct (p (fst x)) eqn:Hx.
  - intros [= <- <-]. exists []. repeat split; [intros y [] | exact Hx].
  - intros H. destruct (IH H) as [pre [-> [Hpre He]]].
    exists (x :: pre). repeat split; [| exact He].
    intros y [<- | Hy]; [exact Hx | now apply Hpre].
Qed.

Lemma seek_behind (p : Node -> bool) (pre l : list Entry) :
  (forall x, In x pre -> p (fst x) = false) -> seek p (pre ++ l) = seek p l.
Proof.
  intros H. induction pre as [|x pre IH]; simpl; [reflexivity |].
  rewrite (H x) by now left. apply IH. intros y Hy. apply H. now right.
Qed.

(** The node a search stops on is of the kind asked for: the [assert]s of
    the source hold. *)
Lemma goToNextNonterminalWithKind_node (c : Cursor) (k : NonterminalKind.t) :
  fst (goToNextNonterminalWithKind c k) = true ->
  exists children,
    node (snd (goToNextNonterminalWithKind c k)) = NonterminalNode k children.
Proof.
  unfold goToNextNonterminalWithKind, goToNextMatching.
  pose proof (seek_filter (isNonterminalWithKind k) (c_ahead c)) as H.
  assert (Hp : forall l e rest, seek (isNonterminalWithKind k) l = Some (e, rest) ->
                           isNonterminalWithKind k (fst e) = true).
  { induction l as [|x l IH]; simpl; [discriminate |]. intros e rest.
    destruct (isNonterminalWithKind k (fst x)) eqn:Hx; [| apply IH].
    intros [= <- <-]. exact Hx. }
  destruct (seek _ _) as [[e rest] |] eqn:Hs; simpl; [| discriminate].
  intros _. apply Hp in Hs. unfold node. simpl.
  destruct (fst e) as [|k' children]; [discriminate |]. simpl in Hs.
  exists children. f_equal.
  destruct k', k; simpl in Hs; try discriminate; try reflexivity.
  apply String.eqb_eq in Hs. now subst.
Qed.

(** The body loop pushes one edit per function body, in document order. *)
Lemma functionBodyLoop_spec (fuel : nat) (contractName : string)
  (variables : list Variable_) (textDocument : TextDocument)
  (cursor : Cursor) (edits : list TextEdit) :
  List.length (c_ahead cursor) < fuel ->
  functionBodyLoop fuel contractName variables textDocument cursor edits
  = edits ++ map (bodyEdit contractName variables textDocument)
                 (filter (fun e => isNonterminalWithKind
                                     NonterminalKind.FunctionBody (fst e))
                         (c_ahead cursor)).
Proof.
  revert cursor edits. induction fuel as [|fuel IH]; intros cursor edits Hf;
    [lia |].
  cbn [functionBodyLoop]. unfold goToNextNonterminalWithKind, goToNextMatching.
  pose proof (seek_filter (isNonterminalWithKind NonterminalKind.FunctionBody)
                          (c_ahead cursor)) as Hs.
  destruct (seek _ (c_ahead cursor)) as [[e rest] |].
  - destruct Hs as [-> Hl]. rewrite IH by (simpl; lia). simpl.
    now rewrite <- app_assoc.
  - rewrite Hs. simpl. now rewrite app_nil_r.
Qed.

Lemma editNamespaceVariablesInFunctions_spec (contractCursor : Cursor)
  (contractName : string) (variables : list Variable_)
  (textDocument : TextDocument) (edits : list TextEdit) :
  editNamespaceVariablesInFunctions contractCursor contractName variables
                                    textDocument edits
  = edits ++ map (bodyEdit contractName variables textDocument)
                 (functionBodies contractCursor).
Proof.
  unfold editNamespaceVariablesInFunctions. now rewrite functionBodyLoop_spec by lia.
Qed.

(** The contract loop stops on the first node it accepts. *)
Lemma locateContract_spec (fuel : nat) (language contractName : string)
  (cursor : Cursor) :
  List.length (c_ahead cursor) < fuel ->
  locateContract fuel language contractName cursor
  = option_map cursorAt (find (accepted language contractName) (c_ahead cursor)).
Proof.
  revert cursor. induction fuel as [|fuel IH]; intros cursor Hf; [lia |].
  cbn [locateContract]. unfold goToNextNonterminalWithKind, goToNextMatching.
  pose proof (seek_find (isNonterminalWithKind NonterminalKind.ContractDefinition)
                        (accepted language contractName) (c_ahead cursor)) as Hs.
  destruct (seek _ (c_ahead cursor)) as [[e rest] |].
  - destruct Hs as [He [-> Hl]].
    { intros x Hx. unfold accepted in Hx.
      now apply andb_true_iff in Hx as [Hx _]; apply andb_true_iff in Hx as [Hx _]. }
    cbn [find]. unfold accepted at 1. rewrite He. simpl.
    unfold spawn, node. simpl.
    destruct (isValid _); simpl; [| apply IH; simpl; lia].
    destruct (String.eqb _ _); simpl; [reflexivity | apply IH; simpl; lia].
  - rewrite Hs; [reflexivity |].
    intros x Hx. unfold accepted in Hx.
    now apply andb_true_iff in Hx as [Hx _]; apply andb_true_iff in Hx as [Hx _].
Qed.

Lemma find_first {A : Type} (q : A -> bool) (pre : list A) (e : A) (post : list A) :
  (forall x, In x pre -> q x = false) -> q e = true ->
  find q (pre ++ e :: post) = Some e.
Proof.
  intros Hpre He. induction pre as [|x pre IH]; simpl; [now rewrite He |].
  rewrite (Hpre x) by now left. apply IH. intros y Hy. apply Hpre. now right.
Qed.

Lemma find_nothing {A : Type} (q : A -> bool) (l : list A) :
  (forall x, In x l -> q x = false) -> find q l = None.
Proof.
  intros H. induction l as [|x l IH]; simpl; [reflexivity |].
  rewrite (H x) by now left. apply IH. intros y Hy. apply H. now right.
Qed.

Lemma editExistingNamespace_spec (variables : list Variable_)
  (textDocument : TextDocument) (edits : list TextEdit)
  (structEndRange : TextRange) (indent : string) :
  editExistingNamespace variables textDocument edits structEndRange indent
  = edits ++ flat_map (fun v => [deleteEdit v;
                                 insertEdit textDocument structEndRange indent v])
                      variables.
Proof.
  unfold editExistingNamespace. revert edits.
  induction variables as [|v vs IH]; intros edits; simpl.
  - now rewrite app_nil_r.
  - rewrite IH. unfold insertEdit. now rewrite <- !app_assoc.
Qed.

(** The fix in terms of what the contract loop left behind. *)
Lemma quickFix_unfold (fixesDiagnostics : list Diagnostic) (title : string)
  (prefix contractName : string) (v : Variable_) (vs : list Variable_)
  (textDocument : TextDocument) :
  getMoveAllVariablesToNamespaceQuickFix fixesDiagnostics title prefix
                                         contractName (v :: vs) textDocument
  = Some {| title := title; kind := QuickFix;
            edit := {| changes :=
              [(uri textDocument,
                match detectedContainer prefix contractName (v :: vs) textDocument with
                | None =>
                    editNewNamespace prefix contractName (v :: vs)
                      (functionEdits prefix contractName (v :: vs) textDocument)
                | Some structEndRange =>
                    editExistingNamespace (v :: vs) textDocument
                      (functionEdits prefix contractName (v :: vs) textDocument)
                      structEndRange "    "
                end)] |};
            diagnostics := fixesDiagnostics |}.
Proof.
  unfold getMoveAllVariablesToNamespaceQuickFix, detectedContainer, functionEdits.
  now destruct (processContract prefix contractName (v :: vs) textDocument).
Qed.

End CursorFacts.

(** ** The fix as a whole *)

Section FixFacts.

Context {collaborators : Collaborators}.

Lemma processContract_spec (prefix contractName : string)
  (variables : list Variable_) (textDocument : TextDocument) :
  processContract prefix contractName variables textDocument
  = match find (accepted (getSolidityVersion textDocument) contractName)
               (scannedNodes textDocument) with
    | Some e =>
        (getNamespaceStructEndRange (cursorAt e) prefix contractName,
         map (bodyEdit contractName variables textDocument)
             (functionBodies (cursorAt e)))
    | None => (None, [])
    end.
Proof.
  unfold processContract, scannedNodes. rewrite locateContract_spec by lia.
  destruct (find _ _) as [e |]; simpl; [| reflexivity].
  now rewrite editNamespaceVariablesInFunctions_spec.
Qed.

Lemma accepted_false (language contractName : string) (x : Entry) :
  isNonterminalWithKind NonterminalKind.ContractDefinition (fst x) = false
  \/ isValid (parse language NonterminalKind.ContractDefinition
                    (unparse (fst x))) = false
  \/ contractDefinitionName (fst x) <> contractName ->
  accepted language contractName x = false.
Proof.
  unfold accepted. intros [H | [H | H]].
  - now rewrite H.
  - rewrite H. now rewrite andb_false_r.
  - apply String.eqb_neq in H. rewrite H. apply andb_false_r.
Qed.

Lemma passedOver_accepted (language contractName : string) (x : Entry) :
  accepted language contractName x = false ->
  passedOver language contractName x.
Proof.
  unfold accepted, passedOver. intros H.
  destruct (isNonterminalWithKind _ _); [| now left].
  destruct (isValid _); [| right; now left].
  simpl in H. right; right. now apply String.eqb_neq.
Qed.

Lemma passedOver_all (language contractName : string) (l : list Entry) :
  forallb (fun x => negb (accepted language contractName x)) l = true ->
  forall x, In x l -> passedOver language contractName x.
Proof.
  intros H x Hx. apply passedOver_accepted.
  rewrite forallb_forall in H. specialize (H x Hx). now destruct (accepted _ _ x).
Qed.

Lemma no_contract_named (contractName : string) (l : list Entry) :
  forallb (fun e =>
             negb (isNonterminalWithKind NonterminalKind.ContractDefinition (fst e))
             || negb (String.eqb (contractDefinitionName (fst e)) contractName))
          l = true ->
  forall e, In e l ->
    isNonterminalWithKind NonterminalKind.ContractDefinition (fst e) = true ->
    contractDefinitionName (fst e) <> contractName.
Proof.
  intros H e He Hk. rewrite forallb_forall in H. specialize (H e He).
  rewrite Hk in H. simpl in H. apply String.eqb_neq.
  now destruct (String.eqb _ _).
Qed.

(** The detector answers exactly when the first documentation comment of
    the contract carries the tag. *)
Lemma detector_answers (contractCursor : Cursor) (prefix contractName : string) :
  (exists k children, node contractCursor = NonterminalNode k children) ->
  (getNamespaceStructEndRange contractCursor prefix contractName <> None
   <-> exists e rest k text,
         seek (isTerminalWithKind TerminalKind.SingleLineNatSpecComment)
              (c_ahead (spawn contractCursor)) = Some (e, rest)
         /\ fst e = TerminalNode k text
         /\ includes text (storageLocationTag prefix contractName) = true).
Proof.
  intros [k0 [children Hroot]].
  unfold getNamespaceStructEndRange, goToNextTerminalWithKind, goToNextMatching.
  destruct (seek _ (c_ahead (spawn contractCursor))) as [[e rest] |]; simpl.
  - unfold node. simpl. destruct (fst e) as [k text | k cs] eqn:He.
    + destruct (includes text _) eqn:Hi; split.
      * intros _. now exists e, rest, k, text.
      * intros _. discriminate.
      * intros H. congruence.
      * intros [e' [rest' [k' [text' [[= <- <-] [Ht Hinc]]]]]].
        rewrite He in Ht. injection Ht as <- <-. congruence.
    + split; [congruence |].
      intros [e' [rest' [k' [text' [[= <- <-] [Ht _]]]]]]. congruence.
  - unfold node in *. simpl. unfold spawn, cursorAt. simpl. rewrite Hroot.
    split; [congruence |]. intros [e [rest [k [text [H _]]]]]. discriminate.
Qed.

(** The detector answers with the closing brace behind the comment when
    no closing brace of the contract stands before the comment. *)
Lemma detector_agrees (contractCursor : Cursor) (prefix contractName : string) :
  (forall pre e rest,
      c_ahead (spawn contractCursor) = pre ++ e :: rest ->
      isTerminalWithKind TerminalKind.SingleLineNatSpecComment (fst e) = true ->
      forall x, In x pre ->
                isTerminalWithKind TerminalKind.CloseBrace (fst x) = false) ->
  getNamespaceStructEndRange contractCursor prefix contractName
  = structEndAfterComment contractCursor prefix contractName.
Proof.
  intros Hbefore.
  unfold getNamespaceStructEndRange, structEndAfterComment,
    goToNextTerminalWithKind, goToNextMatching.
  destruct (seek _ (c_ahead (spawn contractCursor))) as [[e rest] |] eqn:Hs.
  2:{ cbn [snd node c_current c_ahead c_root seek].
      unfold spawn, cursorAt, descendants. cbn [c_root c_ahead fst].
      destruct (c_current contractCursor) as [n off]. cbn [fst snd].
      destruct n as [k text | k cs]; reflexivity. }
  unfold node. cbn [snd c_current c_ahead c_root].
  destruct (fst e) as [k text | k cs] eqn:He; [| reflexivity].
  destruct (includes text _); [| reflexivity]. f_equal.
  apply seek_split in Hs as [pre [Hl [_ Hk]]].
  rewrite Hl at 1.
  rewrite seek_behind by (apply (Hbefore pre e rest Hl Hk)).
  cbn [seek]. rewrite He in Hk |- *.
  assert (Hc : isTerminalWithKind TerminalKind.CloseBrace (TerminalNode k text)
               = false).
  { simpl in Hk |- *. destruct k; simpl in *; congruence. }
  rewrite <- He, He, Hc.
  now destruct (seek _ rest) as [[e' rest'] |].
Qed.

Lemma no_variables_no_action (fixesDiagnostics : list Diagnostic)
  (title prefix contractName : string) (textDocument : TextDocument) :
  getMoveAllVariablesToNamespaceQuickFix fixesDiagnostics title prefix
                                         contractName [] textDocument
  = None.
Proof.
  unfold getMoveAllVariablesToNamespaceQuickFix.
  now destruct (processContract prefix contractName [] textDocument).
Qed.

(** C9. An empty variable list yields no fix, whatever the document
    holds. *)
Theorem empty_variables_no_fix (fixesDiagnostics : list Diagnostic)
  (title prefix contractName : string) (textDocument : TextDocument) :
  getMoveAllVariablesToNamespaceQuickFix fixesDiagnostics title prefix
                                         contractName [] textDocument
  = None.
Proof.
  unfold getMoveAllVariablesToNamespaceQuickFix.
  destruct (processContract prefix contractName [] textDocument) as [r es].
  reflexivity.
Qed.

(** C5. When the contract loop found no insertion point and there is at
    least one variable, the fix is returned and its edits are the
    function-body edits followed by one edit that puts the printed
    template in the place of the first variable and, for every other
    variable in order, one edit that empties its range. *)
Theorem new_container_edits (fixesDiagnostics : list Diagnostic)
  (title prefix contractName : string) (v : Variable_) (vs : list Variable_)
  (textDocument : TextDocument) :
  detectedContainer prefix contractName (v :: vs) textDocument = None ->
  getMoveAllVariablesToNamespaceQuickFix fixesDiagnostics title prefix
                                         contractName (v :: vs) textDocument
  = Some {| title := title; kind := QuickFix;
            edit := {| changes :=
              [(uri textDocument,
                functionEdits prefix contractName (v :: vs) textDocument
                ++ {| range := v_range v;
                      newText := printNamespaceTemplate
                                   {| ns_contractName := contractName;
                                      ns_prefix := prefix;
                                      ns_variables := v :: vs |} |}
                   :: map (fun w => {| range := v_range w; newText := "" |}) vs)] |};
            diagnostics := fixesDiagnostics |}.
Proof.
  intros Hnone. rewrite quickFix_unfold, Hnone. unfold editNewNamespace.
  now rewrite <- app_assoc.
Qed.

(** X11. When the contract loop found the insertion point [R] and there
    is at least one variable, the fix is returned and its edits are the
    function-body edits followed, for each variable in the order of the
    input, by one edit that empties the variable's range and one edit at
    [R] whose text is four blanks, the variable's declaration text, a line
    feed, four blanks and a closing brace. *)
Theorem existing_container_edits (fixesDiagnostics : list Diagnostic)
  (title prefix contractName : string) (variables : list Variable_)
  (textDocument : TextDocument) (R : TextRange) :
  detectedContainer prefix contractName variables textDocument = Some R ->
  variables <> [] ->
  getMoveAllVariablesToNamespaceQuickFix fixesDiagnostics title prefix
                                         contractName variables textDocument
  = Some {| title := title; kind := QuickFix;
            edit := {| changes :=
              [(uri textDocument,
                functionEdits prefix contractName variables textDocument
                ++ flat_map
                     (fun v =>
                        [{| range := v_range v; newText := "" |};
                         {| range := slangToVSCodeRange textDocument R;
                            newText := ("    " ++ v_content v ++ nl
                                        ++ "    }")%string |}])
                     variables)] |};
            diagnostics := fixesDiagnostics |}.
Proof.
  intros Hsome Hne. destruct variables as [|v vs]; [congruence |].
  rewrite quickFix_unfold, Hsome. now rewrite editExistingNamespace_spec.
Qed.

(** C10. With at least one variable and no contract definition of the
    asked name anywhere in the tree of the document, a fix is still
    returned; it holds the new-container edits only: the template in the
    place of the first variable, the other variables emptied, and no edit
    of a function body. *)
Theorem no_contract_new_container_only (fixesDiagnostics : list Diagnostic)
  (title prefix contractName : string) (v : Variable_) (vs : list Variable_)
  (textDocument : TextDocument) :
  (forall e,
      In e (preorder (tree (parse (getSolidityVersion textDocument)
                                  NonterminalKind.SourceUnit
                                  (getText textDocument))) 0) ->
      isNonterminalWithKind NonterminalKind.ContractDefinition (fst e) = true ->
      contractDefinitionName (fst e) <> contractName) ->
  getMoveAllVariablesToNamespaceQuickFix fixesDiagnostics title prefix
                                         contractName (v :: vs) textDocument
  = Some {| title := title; kind := QuickFix;
            edit := {| changes :=
              [(uri textDocument,
                {| range := v_range v;
                   newText := printNamespaceTemplate
                                {| ns_contractName := contractName;
                                   ns_prefix := prefix;
                                   ns_variables := v :: vs |} |}
                :: map (fun w => {| range := v_range w; newText := "" |}) vs)] |};
            diagnostics := fixesDiagnostics |}.
Proof.
  intros Hno. rewrite quickFix_unfold. unfold detectedContainer, functionEdits.
  rewrite processContract_spec. rewrite find_nothing; [reflexivity |].
  intros x Hx. apply accepted_false.
  destruct (isNonterminalWithKind NonterminalKind.ContractDefinition (fst x)) eqn:Hk;
    [| now left].
  right; right. apply Hno; [| exact Hk].
  unfold scannedNodes, createTreeCursor, cursorAt, descendants in Hx. simpl in Hx.
  destruct (preorder _ 0) as [|r l]; [exact Hx | now right].
Qed.

(** C8. The contract loop passes over every node that is not a contract
    definition, whose text does not parse again without errors as a
    contract definition, or whose name differs from the asked one; it
    stops on the first node that is left, whatever comes behind it, and
    it finds nothing when every node is passed over. *)
Theorem contract_locator (fuel : nat) (language contractName : string)
  (cursor : Cursor) :
  List.length (c_ahead cursor) < fuel ->
  (forall pre e post,
      c_ahead cursor = pre ++ e :: post ->
      (forall x, In x pre -> passedOver language contractName x) ->
      isNonterminalWithKind NonterminalKind.ContractDefinition (fst e) = true ->
      isValid (parse language NonterminalKind.ContractDefinition
                     (unparse (fst e))) = true ->
      contractDefinitionName (fst e) = contractName ->
      locateContract fuel language contractName cursor = Some (cursorAt e))
  /\ ((forall x, In x (c_ahead cursor) -> passedOver language contractName x) ->
      locateContract fuel language contractName cursor = None).
Proof.
  intros Hf. rewrite locateContract_spec by exact Hf. split.
  - intros pre e post -> Hpre Hk Hv Hn. rewrite (find_first _ pre e post).
    + reflexivity.
    + intros x Hx. apply accepted_false. now apply Hpre.
    + unfold accepted. rewrite Hk, Hv, Hn. now rewrite String.eqb_refl.
  - intros Hall. rewrite find_nothing; [reflexivity |].
    intros x Hx. apply accepted_false. now apply Hall.
Qed.

Lemma pairwiseDisjoint_app_false (l1 l2 : list Range) :
  pairwiseDisjoint l2 = false -> pairwiseDisjoint (l1 ++ l2) = false.
Proof.
  intros H. induction l1 as [|r l1 IH]; simpl; [exact H |].
  rewrite IH. apply andb_false_r.
Qed.

(** A range that overlaps itself cannot occur twice in a batch. *)
Lemma pairwiseDisjoint_twice (r : Range) (l1 l2 l3 : list Range) :
  overlaps r r = true ->
  pairwiseDisjoint (l1 ++ r :: l2 ++ r :: l3) = false.
Proof.
  intros H. apply pairwiseDisjoint_app_false. simpl.
  rewrite forallb_app. simpl. rewrite H. simpl.
  now rewrite andb_false_r.
Qed.

(** X12. With an existing container the insertion range is in the batch
    once per variable: when the contract loop found the insertion point
    [R], there are two or more variables and [R] is not empty in editor
    coordinates, the ranges of the edits of the fix overlap. *)
Theorem shared_range_overlaps (fixesDiagnostics : list Diagnostic)
  (title prefix contractName : string) (variables : list Variable_)
  (textDocument : TextDocument) (R : TextRange) (action : CodeAction) :
  getMoveAllVariablesToNamespaceQuickFix fixesDiagnostics title prefix
                                         contractName variables textDocument
  = Some action ->
  detectedContainer prefix contractName variables textDocument = Some R ->
  2 <= List.length variables ->
  posLt (r_start (slangToVSCodeRange textDocument R))
        (r_end (slangToVSCodeRange textDocument R)) = true ->
  pairwiseDisjoint (map range (editsOf action)) = false.
Proof.
  intros Hfix HR Hlen Hne.
  destruct variables as [|v [|w ws]]; try (simpl in Hlen; lia).
  rewrite quickFix_unfold, HR, editExistingNamespace_spec in Hfix.
  injection Hfix as <-. unfold editsOf. cbn [edit changes flat_map snd].
  rewrite app_nil_r, map_app. apply pairwiseDisjoint_app_false.
  cbn [flat_map map app range deleteEdit insertEdit].
  apply (pairwiseDisjoint_twice (slangToVSCodeRange textDocument R)
           [v_range v] [v_range w]).
  unfold overlaps. now rewrite Hne.
Qed.

(** C2, as the code has it. The edits of a returned fix begin with
    exactly one edit per function body of the contract the loop stopped
    on, in document order, whether or not the body changes; the edits of
    the container follow.  For variables whose names are identifiers and
    a body whose text ends outside a word and has no whole-word occurrence
    of the name of a variable whose name is free of [$], the edit of the
    body replaces the range of the body by the text of the body. *)
Theorem every_body_edited (fixesDiagnostics : list Diagnostic)
  (title prefix contractName : string) (variables : list Variable_)
  (textDocument : TextDocument) (contractCursor : Cursor)
  (action : CodeAction) :
  locateContract (S (List.length (scannedNodes textDocument)))
                 (getSolidityVersion textDocument) contractName
                 (createTreeCursor
                    (parse (getSolidityVersion textDocument)
                           NonterminalKind.SourceUnit (getText textDocument)))
  = Some contractCursor ->
  getMoveAllVariablesToNamespaceQuickFix fixesDiagnostics title prefix
                                         contractName variables textDocument
  = Some action ->
  editsOf action
  = map (fun e =>
           {| range := slangToVSCodeRange textDocument (entryRange e);
              newText := rewriteFunctionText contractName variables
                                             (unparse (fst e)) |})
        (functionBodies contractCursor)
    ++ match getNamespaceStructEndRange contractCursor prefix contractName with
       | None => editNewNamespace prefix contractName variables []
       | Some structEndRange =>
           editExistingNamespace variables textDocument [] structEndRange "    "
       end
  /\ (identifierNames variables ->
      forall e,
        In e (functionBodies contractCursor) ->
        endsOutsideWord (unparse (fst e)) ->
        (forall v, In v (dollarFree variables) ->
                   ~ occursWord (v_name v) (unparse (fst e))) ->
        rewriteFunctionText contractName variables (unparse (fst e))
        = unparse (fst e)).
Proof.
  intros Hloc Hfix. split.
  - destruct variables as [|v vs];
      [now rewrite no_variables_no_action in Hfix |].
    rewrite quickFix_unfold in Hfix. injection Hfix as <-.
    unfold editsOf. cbn [edit changes flat_map snd]. rewrite app_nil_r.
    unfold detectedContainer, functionEdits, processContract.
    unfold scannedNodes in Hloc. cbv zeta. rewrite Hloc. cbn [fst snd].
    rewrite editNamespaceVariablesInFunctions_spec. cbn [app].
    destruct (getNamespaceStructEndRange contractCursor prefix contractName).
    + rewrite ?editExistingNamespace_spec, <- ?app_assoc. reflexivity.
    + unfold editNewNamespace. rewrite <- ?app_assoc. reflexivity.
  - intros Hid e _ Hend Hno.
    rewrite rewriteFunctionText_dollarFree by assumption.
    apply rewriteFunctionText_fixed; [now apply wordNames_dollarFree |].
    apply referenced_none; [now apply wordNames_dollarFree | exact Hno].
Qed.

End FixFacts.

(** ** The accessor line and repeated rewriting *)

Section BodyClaims.

Local Open Scope string_scope.

(** C1, as the code has it. For variables whose names are identifiers
    and a body whose text ends outside a word: rewriting a rewritten body
    again gives the same text exactly when the body has no whole-word
    occurrence of the name of a variable whose name is free of [$] (the
    rewriting then changes nothing at all; a name with a [$] in it is
    never matched in such a body).  Otherwise the second rewriting changes
    the text again: a name that already carries [$.] is still matched.
    The second rewriting puts in no further accessor line when the line is
    in the text after its replacements. *)
Theorem second_rewrite (contractName : string) (variables : list Variable_)
  (functionText : string) :
  identifierNames variables ->
  endsOutsideWord functionText ->
  (rewriteFunctionText contractName variables
     (rewriteFunctionText contractName variables functionText)
   = rewriteFunctionText contractName variables functionText
   <-> forall v, In v (dollarFree variables) ->
                 ~ occursWord (v_name v) functionText)
  /\ (includes (replaceVariables variables
                  (rewriteFunctionText contractName variables functionText))
               (expectedLine contractName) = true ->
      rewriteFunctionText contractName variables
        (rewriteFunctionText contractName variables functionText)
      = replaceVariables variables
          (rewriteFunctionText contractName variables functionText)).
Proof.
  intros Hid Hend. pose proof (wordNames_dollarFree variables Hid) as Hw. split.
  - rewrite (rewriteFunctionText_dollarFree contractName variables functionText
               Hid Hend).
    rewrite (rewriteFunctionText_dollarFree contractName variables
               (rewriteFunctionText contractName (dollarFree variables)
                                    functionText) Hid)
      by (now apply rewriteFunctionText_ends).
    rewrite <- (referenced_none (dollarFree variables) functionText Hw). split.
    + intros H. apply (rewriteFunctionText_fixed contractName) in H; [| exact Hw].
      destruct (referenced (dollarFree variables) functionText) eqn:Hr;
        [| reflexivity].
      apply (referenced_rewriteFunctionText contractName) in Hr; [| exact Hw].
      congruence.
    + intros H.
      apply (rewriteFunctionText_fixed contractName (dollarFree variables)
               functionText Hw) in H.
      now rewrite !H.
  - intros H. rewrite (rewriteFunctionText_unfold contractName variables
                         (rewriteFunctionText contractName variables functionText)).
    cbv zeta. rewrite H. now rewrite andb_false_r.
Qed.


End BodyClaims.

(** ** The sample documents *)

Section Samples.

Local Existing Instance Demo.demoCollaborators.

Local Open Scope string_scope.

Lemma wordNames_one (v : Variable_) :
  wordName (v_name v) = true -> wordNames [v].
Proof. intros H w [<- | []]. exact H. Qed.

Lemma wordNames_two (v w : Variable_) :
  wordName (v_name v) = true -> wordName (v_name w) = true -> wordNames [v; w].
Proof. intros Hv Hw x [<- | [<- | []]]; assumption. Qed.

Lemma identifierNames_two (v w : Variable_) :
  identifier (v_name v) = true -> identifier (v_name w) = true ->
  identifierNames [v; w].
Proof. intros Hv Hw x [<- | [<- | []]]; assumption. Qed.

(** C1: the second rewriting of a body prefixes the prefixed name again. *)
Lemma second_rewrite_counterexample :
  rewriteFunctionText "Main" [Demo.variableAt 1 "total"] "{ total += 1; }"
  = "{" ++ nl ++ "        MainStorage storage $ = _getMainStorage();" ++ nl
    ++ " $.total += 1; }"
  /\ rewriteFunctionText "Main" [Demo.variableAt 1 "total"]
       (rewriteFunctionText "Main" [Demo.variableAt 1 "total"] "{ total += 1; }")
     = "{" ++ nl ++ "        MainStorage storage $ = _getMainStorage();" ++ nl
       ++ " $.$.total += 1; }"
  /\ rewriteFunctionText "Main" [Demo.variableAt 1 "total"]
       (rewriteFunctionText "Main" [Demo.variableAt 1 "total"] "{ total += 1; }")
     <> rewriteFunctionText "Main" [Demo.variableAt 1 "total"] "{ total += 1; }".
Proof.
  repeat split; try (vm_compute; reflexivity). vm_compute. discriminate.
Qed.

Lemma second_rewrite_witness :
  identifierNames [Demo.variableAt 1 "total"; Demo.variableAt 2 "cap$"]
  /\ endsOutsideWord "{ total += cap$; }"
  /\ includes
       (replaceVariables [Demo.variableAt 1 "total"; Demo.variableAt 2 "cap$"]
          (rewriteFunctionText "Main"
             [Demo.variableAt 1 "total"; Demo.variableAt 2 "cap$"]
             "{ total += cap$; }"))
       (expectedLine "Main") = true
  /\ (rewriteFunctionText "Main"
        [Demo.variableAt 1 "total"; Demo.variableAt 2 "cap$"]
        (rewriteFunctionText "Main"
           [Demo.variableAt 1 "total"; Demo.variableAt 2 "cap$"]
           "{ total += cap$; }")
      = rewriteFunctionText "Main"
          [Demo.variableAt 1 "total"; Demo.variableAt 2 "cap$"]
          "{ total += cap$; }"
      <-> forall v,
            In v (dollarFree [Demo.variableAt 1 "total"; Demo.variableAt 2 "cap$"]) ->
            ~ occursWord (v_name v) "{ total += cap$; }")
  /\ rewriteFunctionText "Main"
       [Demo.variableAt 1 "total"; Demo.variableAt 2 "cap$"]
       (rewriteFunctionText "Main"
          [Demo.variableAt 1 "total"; Demo.variableAt 2 "cap$"]
          "{ total += cap$; }")
     = replaceVariables [Demo.variableAt 1 "total"; Demo.variableAt 2 "cap$"]
         (rewriteFunctionText "Main"
            [Demo.variableAt 1 "total"; Demo.variableAt 2 "cap$"]
            "{ total += cap$; }").
Proof.
  pose proof (identifierNames_two (Demo.variableAt 1 "total")
                (Demo.variableAt 2 "cap$") eq_refl eq_refl) as Hid.
  pose proof (eq_refl : endsOutsideWord "{ total += cap$; }") as Hend.
  destruct (second_rewrite "Main"
              [Demo.variableAt 1 "total"; Demo.variableAt 2 "cap$"]
              "{ total += cap$; }" Hid Hend) as [Hiff Hline].
  split; [exact Hid |]. split; [exact Hend |].
  split; [vm_compute; reflexivity |]. split; [exact Hiff |].
  apply Hline. vm_compute. reflexivity.
Defined.

(** C2: the body of [ping] mentions no variable and still gets an edit,
    which replaces it by itself. *)
Lemma every_body_edited_counterexample :
  referenced [Demo.variableAt 1 "total"]
             (unparse (Demo.functionBody [Demo.assignment "done" "=" "ok"]))
  = false
  /\ exists action,
      getMoveAllVariablesToNamespaceQuickFix [] "Move" "example" "Main"
        [Demo.variableAt 1 "total"] Demo.plainDocument = Some action
      /\ In {| range := {| r_start := Demo.at_ 3 26; r_end := Demo.at_ 4 0 |};
               newText := unparse (Demo.functionBody
                                     [Demo.assignment "done" "=" "ok"]) |}
            (editsOf action).
Proof.
  split; [reflexivity |]. eexists. split; [vm_compute; reflexivity |].
  vm_compute. right. left. reflexivity.
Qed.

Lemma every_body_edited_witness :
  exists action,
    getMoveAllVariablesToNamespaceQuickFix [] "Move" "example" "Main"
      [Demo.variableAt 1 "total"; Demo.variableAt 2 "cap$"] Demo.plainDocument
    = Some action
    /\ editsOf action
       = (map (fun e =>
                 {| range := slangToVSCodeRange Demo.plainDocument (entryRange e);
                    newText := rewriteFunctionText "Main"
                                 [Demo.variableAt 1 "total"; Demo.variableAt 2 "cap$"]
                                 (unparse (fst e)) |})
              (functionBodies (cursorAt (Demo.plainContract, 0)))
          ++ match getNamespaceStructEndRange (cursorAt (Demo.plainContract, 0))
                                              "example" "Main" with
             | None =>
                 editNewNamespace "example" "Main"
                   [Demo.variableAt 1 "total"; Demo.variableAt 2 "cap$"] []
             | Some structEndRange =>
                 editExistingNamespace
                   [Demo.variableAt 1 "total"; Demo.variableAt 2 "cap$"]
                   Demo.plainDocument [] structEndRange "    "
             end)%list
    /\ In (Demo.functionBody [Demo.assignment "done" "=" "ok"], 107)
          (functionBodies (cursorAt (Demo.plainContract, 0)))
    /\ rewriteFunctionText "Main"
         [Demo.variableAt 1 "total"; Demo.variableAt 2 "cap$"]
         (unparse (Demo.functionBody [Demo.assignment "done" "=" "ok"]))
       = unparse (Demo.functionBody [Demo.assignment "done" "=" "ok"]).
Proof.
  destruct (getMoveAllVariablesToNamespaceQuickFix [] "Move" "example" "Main"
              [Demo.variableAt 1 "total"; Demo.variableAt 2 "cap$"]
              Demo.plainDocument) as [action |] eqn:Hfix;
    [| vm_compute in Hfix; discriminate].
  exists action. split; [reflexivity |].
  pose proof (identifierNames_two (Demo.variableAt 1 "total")
                (Demo.variableAt 2 "cap$") eq_refl eq_refl) as Hid.
  assert (Hin : In (Demo.functionBody [Demo.assignment "done" "=" "ok"], 107)
                   (functionBodies (cursorAt (Demo.plainContract, 0))))
    by (vm_compute; right; left; reflexivity).
  assert (Hloc : locateContract (S (List.length (scannedNodes Demo.plainDocument)))
                   (getSolidityVersion Demo.plainDocument) "Main"
                   (createTreeCursor
                      (parse (getSolidityVersion Demo.plainDocument)
                             NonterminalKind.SourceUnit
                             (getText Demo.plainDocument)))
                 = Some (cursorAt (Demo.plainContract, 0)))
    by (vm_compute; reflexivity).
  destruct (every_body_edited [] "Move" "example" "Main"
              [Demo.variableAt 1 "total"; Demo.variableAt 2 "cap$"]
              Demo.plainDocument (cursorAt (Demo.plainContract, 0)) action
              Hloc Hfix) as [Hedits Hsame].
  split; [exact Hedits |]. split; [exact Hin |].
  apply (Hsame Hid _ Hin); [reflexivity |].
  apply referenced_none; [now apply wordNames_dollarFree | reflexivity].
Defined.

(** C3: with an existing container and two variables the fix sends both
    declarations to the range of the same closing brace (line 2,
    characters 39 to 40), as two replacements of it: the ranges of the
    batch overlap. *)
Lemma tagged_batch_overlaps :
  exists action,
    getMoveAllVariablesToNamespaceQuickFix [] "Move" "example" "Main"
      [Demo.variableAt 3 "total"; Demo.variableAt 4 "count"] Demo.taggedDocument
    = Some action
    /\ map range (editsOf action)
       = [{| r_start := Demo.at_ 5 26; r_end := Demo.at_ 6 0 |};
          {| r_start := Demo.at_ 3 4; r_end := Demo.at_ 3 18 |};
          {| r_start := Demo.at_ 2 39; r_end := Demo.at_ 2 40 |};
          {| r_start := Demo.at_ 4 4; r_end := Demo.at_ 4 18 |};
          {| r_start := Demo.at_ 2 39; r_end := Demo.at_ 2 40 |}]
    /\ overlaps {| r_start := Demo.at_ 2 39; r_end := Demo.at_ 2 40 |}
                {| r_start := Demo.at_ 2 39; r_end := Demo.at_ 2 40 |} = true
    /\ pairwiseDisjoint (map range (editsOf action)) = false.
Proof.
  eexists. split; [vm_compute; reflexivity |]. repeat split; reflexivity.
Qed.

(** C6: with an existing container and two variables the closing brace
    of the container (offset 117, line 2, characters 39 to 40) is replaced
    once per variable, each time by one declaration and a closing brace of
    its own: the two declarations are not put, one after the other, before
    the one closing brace of the container. *)
Lemma tagged_container_closed_per_declaration :
  getNamespaceStructEndRange (cursorAt (Demo.taggedContract, 0)) "example" "Main"
  = Some {| tr_start := 117; tr_end := 118 |}
  /\ textAt {| tr_start := 117; tr_end := 118 |} (getText Demo.taggedDocument)
     = "}"
  /\ getMoveAllVariablesToNamespaceQuickFix [] "Move" "example" "Main"
       [Demo.variableAt 3 "total"; Demo.variableAt 4 "count"] Demo.taggedDocument
     = Some {| title := "Move"; kind := QuickFix;
               edit := {| changes :=
                 [("file:///Tagged.sol",
                   [{| range := {| r_start := Demo.at_ 5 26; r_end := Demo.at_ 6 0 |};
                       newText := " {" ++ nl
                                  ++ "        MainStorage storage $ = _getMainStorage();"
                                  ++ nl ++ " $.total += $.count; }" ++ nl |};
                    {| range := {| r_start := Demo.at_ 3 4; r_end := Demo.at_ 3 18 |};
                       newText := "" |};
                    {| range := {| r_start := Demo.at_ 2 39; r_end := Demo.at_ 2 40 |};
                       newText := "    uint256 total;" ++ nl ++ "    }" |};
                    {| range := {| r_start := Demo.at_ 4 4; r_end := Demo.at_ 4 18 |};
                       newText := "" |};
                    {| range := {| r_start := Demo.at_ 2 39; r_end := Demo.at_ 2 40 |};
                       newText := "    uint256 count;" ++ nl ++ "    }" |}])] |};
               diagnostics := [] |}.
Proof. repeat split; vm_compute; reflexivity. Qed.

Lemma shared_range_overlaps_witness :
  exists action,
    getMoveAllVariablesToNamespaceQuickFix [] "Move" "example" "Main"
      [Demo.variableAt 3 "total"; Demo.variableAt 4 "count"] Demo.taggedDocument
    = Some action
    /\ detectedContainer "example" "Main"
         [Demo.variableAt 3 "total"; Demo.variableAt 4 "count"] Demo.taggedDocument
       = Some {| tr_start := 117; tr_end := 118 |}
    /\ pairwiseDisjoint (map range (editsOf action)) = false.
Proof.
  eexists. split; [vm_compute; reflexivity |]. split; [vm_compute; reflexivity |].
  apply (shared_range_overlaps [] "Move" "example" "Main"
           [Demo.variableAt 3 "total"; Demo.variableAt 4 "count"]
           Demo.taggedDocument {| tr_start := 117; tr_end := 118 |}).
  - vm_compute. reflexivity.
  - vm_compute. reflexivity.
  - simpl. lia.
  - vm_compute. reflexivity.
Defined.

(** C4: in a contract whose tagged struct comes second, the answer of
    the detector is the closing brace of the first struct (offset 47, in
    [struct Point]), not the one behind the comment (offset 150); the
    declaration of the fix is sent to line 1. *)
Lemma detector_takes_first_brace :
  getNamespaceStructEndRange (cursorAt (Demo.laterContract, 0)) "example" "Main"
  = Some {| tr_start := 47; tr_end := 48 |}
  /\ structEndAfterComment (cursorAt (Demo.laterContract, 0)) "example" "Main"
     = Some {| tr_start := 150; tr_end := 151 |}
  /\ getMoveAllVariablesToNamespaceQuickFix [] "Move" "example" "Main"
       [Demo.variableAt 4 "total"] Demo.laterDocument
     = Some {| title := "Move"; kind := QuickFix;
               edit := {| changes :=
                 [("file:///Later.sol",
                   [{| range := {| r_start := Demo.at_ 4 4; r_end := Demo.at_ 4 18 |};
                       newText := "" |};
                    {| range := {| r_start := Demo.at_ 1 31; r_end := Demo.at_ 1 32 |};
                       newText := "    uint256 total;" ++ nl ++ "    }" |}])] |};
               diagnostics := [] |}.
Proof. repeat split; vm_compute; reflexivity. Qed.

Lemma new_container_edits_witness :
  detectedContainer "example" "Main" [Demo.variableAt 1 "total"] Demo.plainDocument
  = None
  /\ getMoveAllVariablesToNamespaceQuickFix [] "Move" "example" "Main"
       [Demo.variableAt 1 "total"] Demo.plainDocument
     = Some {| title := "Move"; kind := QuickFix;
               edit := {| changes :=
                 [(uri Demo.plainDocument,
                   (functionEdits "example" "Main" [Demo.variableAt 1 "total"]
                                  Demo.plainDocument
                    ++ {| range := v_range (Demo.variableAt 1 "total");
                          newText := printNamespaceTemplate
                                       {| ns_contractName := "Main";
                                          ns_prefix := "example";
                                          ns_variables := [Demo.variableAt 1 "total"] |} |}
                       :: map (fun w => {| range := v_range w; newText := "" |}) [])%list)] |};
               diagnostics := [] |}.
Proof.
  split.
  - vm_compute. reflexivity.
  - apply (new_container_edits [] "Move" "example" "Main"
             (Demo.variableAt 1 "total") [] Demo.plainDocument).
    vm_compute. reflexivity.
Defined.

Lemma existing_container_edits_witness :
  getMoveAllVariablesToNamespaceQuickFix [] "Move" "example" "Main"
    [Demo.variableAt 3 "total"; Demo.variableAt 4 "count"] Demo.taggedDocument
  = Some {| title := "Move"; kind := QuickFix;
            edit := {| changes :=
              [(uri Demo.taggedDocument,
                (functionEdits "example" "Main"
                   [Demo.variableAt 3 "total"; Demo.variableAt 4 "count"]
                   Demo.taggedDocument
                 ++ flat_map
                      (fun v =>
                         [{| range := v_range v; newText := "" |};
                          {| range := slangToVSCodeRange Demo.taggedDocument
                                        {| tr_start := 117; tr_end := 118 |};
                             newText := ("    " ++ v_content v ++ nl
                                         ++ "    }")%string |}])
                      [Demo.variableAt 3 "total"; Demo.variableAt 4 "count"])%list)] |};
            diagnostics := [] |}.
Proof.
  apply (existing_container_edits [] "Move" "example" "Main"
           [Demo.variableAt 3 "total"; Demo.variableAt 4 "count"]
           Demo.taggedDocument {| tr_start := 117; tr_end := 118 |}).
  - vm_compute. reflexivity.
  - discriminate.
Defined.



(** C8 on the document with two contracts of the same name: the first
    does not parse on its own and is passed over, the loop stops on the
    second. *)
Lemma contract_locator_witness :
  locateContract (S (List.length (scannedNodes Demo.twinDocument))) "0.8.20" "Main"
    (createTreeCursor (parse "0.8.20" NonterminalKind.SourceUnit
                             (getText Demo.twinDocument)))
  = Some (cursorAt (Demo.soundContract, 32)).
Proof.
  refine (proj1 (contract_locator
                   (S (List.length (scannedNodes Demo.twinDocument))) "0.8.20" "Main"
                   (createTreeCursor (parse "0.8.20" NonterminalKind.SourceUnit
                                            (getText Demo.twinDocument))) _)
                (firstn 16 (scannedNodes Demo.twinDocument))
                (Demo.soundContract, 32)
                (skipn 17 (scannedNodes Demo.twinDocument)) _ _ _ _ _).
  - vm_compute. lia.
  - vm_compute. reflexivity.
  - apply passedOver_all. vm_compute. reflexivity.
  - reflexivity.
  - vm_compute. reflexivity.
  - reflexivity.
Defined.

Lemma no_contract_new_container_only_witness :
  getMoveAllVariablesToNamespaceQuickFix [] "Move" "example" "Other"
    [Demo.variableAt 1 "total"] Demo.plainDocument
  = Some {| title := "Move"; kind := QuickFix;
            edit := {| changes :=
              [(uri Demo.plainDocument,
                {| range := v_range (Demo.variableAt 1 "total");
                   newText := printNamespaceTemplate
                                {| ns_contractName := "Other";
                                   ns_prefix := "example";
                                   ns_variables := [Demo.variableAt 1 "total"] |} |}
                :: map (fun w => {| range := v_range w; newText := "" |}) [])] |};
            diagnostics := [] |}.
Proof.
  apply (no_contract_new_container_only [] "Move" "example" "Other"
           (Demo.variableAt 1 "total") [] Demo.plainDocument).
  apply no_contract_named. vm_compute. reflexivity.
Defined.

End Samples.

(** * Further properties *)

(** ** What the rewriting of a body keeps *)

Section Kept.

Local Open Scope string_scope.

Lemma Subseq_refl (s : string) : Subseq s s.
Proof. induction s as [|c s IH]; constructor. exact IH. Qed.

Lemma Subseq_trans (s t u : string) : Subseq s t -> Subseq t u -> Subseq s u.
Proof.
  intros Hst Htu. revert s Hst.
  induction Htu as [u | c t u Htu IH | c t u Htu IH]; intros s Hst.
  - inversion Hst. constructor.
  - inversion Hst as [t' | c' s' t' Hs | c' s' t' Hs]; subst.
    + constructor.
    + apply Subseq_keep. now apply IH.
    + apply Subseq_put. now apply IH.
  - apply Subseq_put. now apply IH.
Qed.

Lemma Subseq_behind (x s t : string) : Subseq s t -> Subseq s (x ++ t).
Proof.
  intros H. induction x as [|c x IH]; [exact H | now apply Subseq_put].
Qed.

Lemma Subseq_app (a a' b b' : string) :
  Subseq a a' -> Subseq b b' -> Subseq (a ++ b) (a' ++ b').
Proof.
  intros Ha Hb. induction Ha as [t | c s t Ha IH | c s t Ha IH]; simpl.
  - now apply Subseq_behind.
  - now apply Subseq_keep.
  - now apply Subseq_put.
Qed.

(** The characters a match consumes are all in what replaces it. *)
Lemma literals_expandName (name : string) :
  Subseq (literals name) (expandName name)
  /\ forall c, Subseq (literals (String c name)) (expandName (String c name)).
Proof.
  induction name as [|d name [IH1 IH2]].
  - split; [constructor |]. intros c. simpl.
    destruct (Ascii.eqb c "$"); [constructor | apply Subseq_refl].
  - split; [apply IH2 |]. intros c.
    change (literals (String c (String d name)))
      with (if Ascii.eqb c "$" then literals (String d name)
            else String c (literals (String d name))).
    change (expandName (String c (String d name)))
      with (if Ascii.eqb c "$"
            then if Ascii.eqb d "$" then String "$" (expandName name)
                 else String c (expandName (String d name))
            else String c (expandName (String d name))).
    destruct (Ascii.eqb c "$").
    + destruct (Ascii.eqb d "$") eqn:Hd.
      * apply Subseq_put. simpl. now rewrite Hd.
      * apply Subseq_put. apply IH2.
    + apply Subseq_keep. apply IH2.
Qed.

Lemma matchName_literals (name s rest : string) :
  matchName name s = Some rest -> s = literals name ++ rest.
Proof.
  revert s. induction name as [|c name IH]; intros s; simpl.
  - now intros [= ->].
  - destruct (Ascii.eqb c "$").
    + destruct s; [apply IH | discriminate].
    + destruct s as [|d s]; [discriminate |].
      destruct (Ascii.eqb_spec c d) as [-> | _]; [| discriminate].
      intros H. simpl. now rewrite (IH s H).
Qed.

Lemma matchAt_matchName (name : string) (prev : option ascii) (s : string) :
  matchAt name prev s = true -> exists rest, matchName name s = Some rest.
Proof.
  unfold matchAt. intros H. apply andb_true_iff in H as [_ H].
  destruct (matchName name s) as [rest |]; [now exists rest | discriminate].
Qed.

(** Whatever the name: the scanned text, behind the characters still to be
    passed over, is kept in the result. *)
Lemma scan_keeps (name : string) (prev : option ascii) (k : nat) (s : string) :
  Subseq (drop k s) (scan name prev k s).
Proof.
  revert prev k. induction s as [|c s IH]; intros prev k.
  - destruct k; constructor.
  - destruct k as [|k]; [| apply (IH (Some c) k)].
    change (drop 0 (String c s)) with (String c s). cbn [scan].
    destruct (matchAt name prev (String c s)) eqn:Hm.
    + destruct (String.length (literals name)) as [|k] eqn:Hl.
      * apply Subseq_behind. apply Subseq_keep. apply (IH (Some c) 0).
      * destruct (matchAt_matchName _ _ _ Hm) as [rest Hrest].
        apply matchName_literals in Hrest. rewrite Hrest at 1.
        unfold replacementText. rewrite append_assoc.
        apply Subseq_behind. apply Subseq_app; [apply literals_expandName |].
        assert (Hd : drop k s = rest).
        { destruct (literals name) as [|x l] eqn:Hlit; [discriminate |].
          simpl in Hrest, Hl. injection Hrest as _ ->. injection Hl as <-.
          apply drop_app. }
        rewrite <- Hd. apply IH.
    + apply Subseq_keep. apply (IH (Some c) 0).
Qed.

Lemma replaceVariables_keeps (variables : list Variable_) (text : string) :
  Subseq text (replaceVariables variables text).
Proof.
  revert text. induction variables as [|v vs IH]; intros text;
    [apply Subseq_refl |].
  rewrite replaceVariables_cons.
  apply (Subseq_trans _ (replaceWord (v_name v) text)); [| apply IH].
  apply (scan_keeps (v_name v) None 0 text).
Qed.

Lemma withAccessorLine_keeps (contractName r : string) :
  Subseq r (withAccessorLine contractName r).
Proof.
  destruct (hasChar "{" r) eqn:Hb.
  - apply hasChar_split in Hb as [a [b [-> Ha]]].
    rewrite withAccessorLine_brace by exact Ha.
    apply Subseq_app; [apply Subseq_refl |]. apply Subseq_keep.
    apply Subseq_behind. apply Subseq_refl.
  - rewrite withAccessorLine_nobrace by exact Hb.
    apply Subseq_behind. apply Subseq_refl.
Qed.

(** X1. The rewriting of a function body takes no character away and
    changes none: whatever the contract name, the variables (their names
    being identifiers) and the text of the body, the text of the body is
    kept, character by character and in order, in the rewritten text. *)
Theorem rewriting_only_inserts (contractName : string)
  (variables : list Variable_) (functionText : string) :
  identifierNames variables ->
  Subseq functionText (rewriteFunctionText contractName variables functionText).
Proof.
  intros _. rewrite rewriteFunctionText_unfold. cbv zeta.
  destruct (_ && _).
  - apply (Subseq_trans _ (replaceVariables variables functionText)).
    + apply replaceVariables_keeps.
    + apply withAccessorLine_keeps.
  - apply replaceVariables_keeps.
Qed.

End Kept.

(** ** Names with a dollar sign, bodies without a brace *)

Section Edges.

Local Open Scope string_scope.


Lemma take_withoutLast (s : string) :
  take (String.length s - 1) s = withoutLast s.
Proof.
  induction s as [|c s IH]; [reflexivity |].
  destruct s as [|d s]; [reflexivity |].
  replace (String.length (String c (String d s)) - 1)
    with (S (String.length (String d s) - 1)) by (simpl; lia).
  cbn [take withoutLast]. now rewrite IH.
Qed.

Lemma slice_withoutLast (s : string) : slice s 0 (-1) = withoutLast s.
Proof.
  unfold slice, relativeIndex.
  change (-1 <? 0)%Z with true. change (0 <? 0)%Z with false. cbv iota.
  rewrite Z.min_l by lia. rewrite Z.sub_0_r. simpl drop.
  replace (Z.to_nat (Z.max (Z.of_nat (String.length s) + -1) 0))
    with (String.length s - 1) by lia.
  apply take_withoutLast.
Qed.

(** X3. A body without an opening brace (the semicolon of a function
    without implementation, with a comment behind it) that mentions a
    variable: for variables whose names are identifiers and a text that
    ends outside a word, has no opening brace and holds a whole-word
    occurrence of the name of a variable whose name is free of [$],
    [indexOf] answers [-1], and the rewritten text is the text after the
    replacements without its last character, then the brace and the
    accessor line, then the whole text after the replacements once more. *)
Theorem body_without_brace (contractName : string)
  (variables : list Variable_) (functionText : string) :
  identifierNames variables ->
  endsOutsideWord functionText ->
  hasChar "{" functionText = false ->
  (exists v, In v (dollarFree variables) /\ occursWord (v_name v) functionText) ->
  includes (replaceVariables variables functionText)
           (expectedLine contractName) = false ->
  rewriteFunctionText contractName variables functionText
  = withoutLast (replaceVariables variables functionText)
    ++ "{" ++ nl ++ "        " ++ expectedLine contractName ++ nl
    ++ replaceVariables variables functionText.
Proof.
  intros Hid Hend Hb Hocc Hinc.
  pose proof (wordNames_dollarFree variables Hid) as Hw.
  rewrite (rewriteFunctionText_dollarFree contractName variables _ Hid Hend).
  rewrite (replaceVariables_dollarFree variables _ Hid Hend) in Hinc |- *.
  rewrite rewriteFunctionText_unfold. cbv zeta.
  assert (Hne : String.eqb (replaceVariables (dollarFree variables) functionText)
                           functionText = false).
  { apply String.eqb_neq. intros He.
    apply (replaceVariables_fixed (dollarFree variables) _ Hw) in He.
    apply (referenced_spec (dollarFree variables) _ Hw) in Hocc. congruence. }
  rewrite Hne, Hinc. simpl andb. cbv iota.
  rewrite withAccessorLine_nobrace by now apply replaceVariables_hasChar.
  rewrite slice_withoutLast. unfold accessorInsertion.
  now rewrite !append_assoc.
Qed.

End Edges.

(** ** The order of the variables *)

Section Order.

Local Open Scope string_scope.

Lemma word_prefix (t : string) :
  exists w rest,
    t = w ++ rest /\ allWord w = true /\ isWordAt (first rest) = false.
Proof.
  induction t as [|c t [w [rest [-> [Hw Hrest]]]]].
  - now exists "", "".
  - destruct (isWord c) eqn:Hc.
    + exists (String c w), rest. repeat split; [| exact Hrest].
      simpl. now rewrite Hc, Hw.
    + exists "", (String c (w ++ rest)). repeat split. exact Hc.
Qed.

Lemma scan_run_prev (name : string) (prev : option ascii) (v : string) :
  wordName name = true -> allWord v = true -> v <> "" ->
  exists x,
    scan name prev 0 v = x ++ v
    /\ (x = "" \/ (x = "$." /\ isWordAt prev = false)).
Proof.
  intros Hn Hv Hne. destruct v as [|c v]; [congruence |].
  rewrite (scan_here name Hn).
  destruct (matchAt name prev (String c v)) eqn:Hm.
  - apply (matchAt_spec name Hn) in Hm as [Hp [post [H Hpost]]].
    assert (post = "") as ->.
    { rewrite H, allWord_app in Hv. apply andb_true_iff in Hv as [_ Hv].
      destruct post as [|x post]; [reflexivity |]. simpl in *.
      apply andb_true_iff in Hv as [Hx _]. congruence. }
    rewrite append_nil_r in H. exists "$.". split; [| now right].
    rewrite (scan_skip_all name Hn).
    + now rewrite append_nil_r, <- H.
    + rewrite <- H. simpl. lia.
  - exists "". split; [| now left]. simpl.
    simpl in Hv. apply andb_true_iff in Hv as [Hc Hv].
    now rewrite (scan_inside name Hn).
Qed.

(** A run of word characters, with or without the prefix another
    replacement gave it, and what follows it. *)
Lemma scan_prefixed (name : string) (prev : option ascii) (w rest p x : string) :
  wordName name = true -> allWord w = true -> w <> "" ->
  isWordAt (first rest) = false ->
  p = "" \/ (p = "$." /\ isWordAt prev = false) ->
  scan name prev 0 w = x ++ w ->
  scan name prev 0 ((p ++ w) ++ rest)
  = p ++ x ++ w ++ scan name (lastOr prev w) 0 rest.
Proof.
  intros Hn Hw Hne Hrest [-> | [-> Hp]] Hx.
  - simpl. rewrite (scan_app name Hn) by (lia || now right).
    now rewrite Hx, append_assoc.
  - change (("$." ++ w) ++ rest) with (String "$" (String "." (w ++ rest))).
    rewrite (scan_here name Hn), (matchAt_nonword name Hn) by reflexivity.
    rewrite (scan_here name Hn), (matchAt_nonword name Hn) by reflexivity.
    rewrite (scan_app name Hn) by (lia || now right).
    rewrite (scan_prev name Hn (Some "."%char) prev) by (now rewrite Hp).
    rewrite Hx, (lastOr_nonempty (Some "."%char) prev w Hne).
    simpl. now rewrite append_assoc.
Qed.

(** Two replacements can be made in either order. *)
Lemma scan_commute (a b : string) :
  wordName a = true -> wordName b = true ->
  forall n t, String.length t <= n ->
  forall prev,
    scan a prev 0 (scan b prev 0 t) = scan b prev 0 (scan a prev 0 t).
Proof.
  intros Ha Hb. induction n as [|n IH]; intros t Hn prev.
  - destruct t; [| simpl in Hn; lia]. now rewrite !scan_end.
  - destruct t as [|c t]; [now rewrite !scan_end |].
    destruct (isWord c) eqn:Hc.
    + destruct (word_prefix (String c t)) as [w [rest [Ht [Hw Hrest]]]].
      assert (Hne : w <> "").
      { intros ->. simpl in Ht. subst rest. simpl in Hrest. congruence. }
      assert (Hlen : String.length rest <= n).
      { apply (f_equal String.length) in Ht. rewrite length_append in Ht.
        destruct w; [congruence |]. simpl in Ht, Hn. lia. }
      rewrite Ht.
      destruct (scan_run_prev a prev w Ha Hw Hne) as [xa [Hxa Hpa]].
      destruct (scan_run_prev b prev w Hb Hw Hne) as [xb [Hxb Hpb]].
      rewrite (scan_app a Ha prev 0 w rest) by (lia || now right).
      rewrite (scan_app b Hb prev 0 w rest) by (lia || now right).
      rewrite Hxa, Hxb.
      rewrite (scan_prefixed a prev w _ xb xa Ha Hw Hne
                 (scan_first b Hb _ rest Hrest) Hpb Hxa).
      rewrite (scan_prefixed b prev w _ xa xb Hb Hw Hne
                 (scan_first a Ha _ rest Hrest) Hpa Hxb).
      rewrite (IH rest Hlen (lastOr prev w)).
      destruct Hpa as [-> | [-> _]]; destruct Hpb as [-> | [-> _]]; reflexivity.
    + rewrite (scan_here a Ha), (scan_here b Hb).
      rewrite (matchAt_nonword a Ha), (matchAt_nonword b Hb) by exact Hc.
      rewrite (scan_here a Ha), (scan_here b Hb).
      rewrite (matchAt_nonword a Ha), (matchAt_nonword b Hb) by exact Hc.
      rewrite IH; [reflexivity | simpl in Hn; lia].
Qed.

Lemma replaceWord_commute (a b text : string) :
  wordName a = true -> wordName b = true ->
  replaceWord a (replaceWord b text) = replaceWord b (replaceWord a text).
Proof.
  intros Ha Hb. unfold replaceWord.
  apply (scan_commute a b Ha Hb (String.length text) text (le_n _) None).
Qed.

Lemma wordNames_permutation (vs vs' : list Variable_) :
  Permutation vs vs' -> wordNames vs -> wordNames vs'.
Proof.
  intros Hp Hw v Hv. apply Hw. apply (Permutation_in v (Permutation_sym Hp) Hv).
Qed.

Lemma replaceVariables_permutation (vs vs' : list Variable_) :
  Permutation vs vs' -> wordNames vs ->
  forall text, replaceVariables vs text = replaceVariables vs' text.
Proof.
  induction 1 as [| x l l' Hp IH | x y l | l l' l'' Hp1 IH1 Hp2 IH2];
    intros Hw text.
  - reflexivity.
  - rewrite !replaceVariables_cons. apply IH.
    now apply wordNames_cons in Hw as [_ Hw].
  - rewrite !replaceVariables_cons. f_equal. apply replaceWord_commute.
    + apply Hw. right. now left.
    + apply Hw. now left.
  - rewrite IH1 by exact Hw. apply IH2.
    now apply (wordNames_permutation l l').
Qed.

(** X4. The order in which the variables are listed makes no
    difference to the function bodies: for two lists of variables that
    are permutations of each other, [editNamespaceVariablesInFunctions]
    pushes the same edits. *)
Theorem variable_order_irrelevant {collaborators : Collaborators}
  (contractCursor : Cursor) (contractName : string)
  (variables variables' : list Variable_) (textDocument : TextDocument)
  (edits : list TextEdit) :
  wordNames variables ->
  Permutation variables variables' ->
  editNamespaceVariablesInFunctions contractCursor contractName variables
                                    textDocument edits
  = editNamespaceVariablesInFunctions contractCursor contractName variables'
                                      textDocument edits.
Proof.
  intros Hw Hp. rewrite !editNamespaceVariablesInFunctions_spec. f_equal.
  apply map_ext. intros e. unfold bodyEdit. f_equal.
  rewrite !rewriteFunctionText_unfold. cbv zeta.
  now rewrite (replaceVariables_permutation variables variables' Hp Hw).
Qed.

End Order.

(** ** Trees, offsets and text *)

Section TreeFacts.

Local Open Scope string_scope.

Lemma Node_induction (P : Node -> Prop) :
  (forall k text, P (TerminalNode k text)) ->
  (forall k children, Forall P children -> P (NonterminalNode k children)) ->
  forall n, P n.
Proof.
  intros Ht Hn. fix IH 1. intros [k text | k children].
  - apply Ht.
  - apply Hn. induction children as [|c cs IHcs]; constructor.
    + apply IH.
    + exact IHcs.
Qed.

Lemma preorder_nonterminal (k : NonterminalKind.t) (children : list Node)
  (offset : nat) :
  preorder (NonterminalNode k children) offset
  = (NonterminalNode k children, offset) :: siblingsOrder children offset.
Proof. reflexivity. Qed.

Lemma unparse_nonterminal (k : NonterminalKind.t) (c : Node) (cs : list Node) :
  unparse (NonterminalNode k (c :: cs))
  = unparse c ++ unparse (NonterminalNode k cs).
Proof. reflexivity. Qed.

Lemma take_app_le (n : nat) (a b : string) :
  n <= String.length a -> take n (a ++ b) = take n a.
Proof.
  revert a. induction n as [|n IH]; intros a H.
  - now destruct a, b.
  - destruct a as [|x a]; [simpl in H; lia |]. simpl. rewrite IH; [reflexivity |].
    simpl in H. lia.
Qed.

Lemma drop_app_ge (j : nat) (a b : string) :
  drop (String.length a + j) (a ++ b) = drop j b.
Proof. induction a as [|x a IH]; [reflexivity | exact IH]. Qed.

Lemma drop_drop (i j : nat) (s : string) : drop (i + j) s = drop j (drop i s).
Proof.
  revert s. induction i as [|i IH]; intros s; [reflexivity |].
  destruct s as [|c s]; [now destruct j | apply IH].
Qed.

Lemma take_drop_take (m j l : nat) (u : string) :
  j + m <= l -> take m (drop j (take l u)) = take m (drop j u).
Proof.
  revert m j l. induction u as [|c u IH]; intros m j l H.
  - now destruct l, j.
  - destruct l as [|l].
    + replace j with 0 by lia. replace m with 0 by lia. reflexivity.
    + destruct j as [|j].
      * simpl. destruct m as [|m]; [reflexivity |]. simpl. f_equal.
        apply (IH m 0 l). lia.
      * simpl. apply IH. lia.
Qed.

Lemma within_self (n : Node) (offset : nat) : within n offset (n, offset).
Proof.
  unfold within. cbn [fst snd]. repeat split; try lia.
  rewrite Nat.sub_diag. apply take_all.
Qed.

Lemma within_first (k : NonterminalKind.t) (c : Node) (cs : list Node)
  (offset : nat) (x : Entry) :
  within c offset x -> within (NonterminalNode k (c :: cs)) offset x.
Proof.
  unfold within. rewrite unparse_nonterminal, length_append.
  intros [Hlo [Hhi Htext]]. repeat split; try lia.
  rewrite drop_app_le by lia. rewrite take_app_le; [exact Htext |].
  rewrite length_drop. lia.
Qed.

Lemma within_later (k : NonterminalKind.t) (c : Node) (cs : list Node)
  (offset : nat) (x : Entry) :
  within (NonterminalNode k cs) (offset + String.length (unparse c)) x ->
  within (NonterminalNode k (c :: cs)) offset x.
Proof.
  unfold within. rewrite unparse_nonterminal, length_append.
  intros [Hlo [Hhi Htext]]. repeat split; try lia.
  replace (snd x - offset)
    with (String.length (unparse c)
          + (snd x - (offset + String.length (unparse c)))) by lia.
  now rewrite drop_app_ge.
Qed.

Lemma siblingsOrder_within (k : NonterminalKind.t) (children : list Node) :
  Forall (fun c => forall offset x, In x (preorder c offset) -> within c offset x)
         children ->
  forall offset x,
    In x (siblingsOrder children offset) ->
    within (NonterminalNode k children) offset x.
Proof.
  induction 1 as [|c cs Hc Hcs IH]; intros offset x Hx; [destruct Hx |].
  cbn [siblingsOrder] in Hx. apply in_app_or in Hx as [Hx | Hx].
  - apply within_first. now apply Hc.
  - apply within_later. now apply IH.
Qed.

Lemma preorder_within (n : Node) :
  forall offset x, In x (preorder n offset) -> within n offset x.
Proof.
  induction n as [k text | k children IH] using Node_induction;
    intros offset x Hx.
  - destruct Hx as [<- | []]. apply within_self.
  - rewrite preorder_nonterminal in Hx. destruct Hx as [<- | Hx].
    + apply within_self.
    + now apply (siblingsOrder_within k children IH).
Qed.

Lemma within_trans (root : Node) (offset : nat) (e b : Entry) :
  within root offset e -> within (fst e) (snd e) b -> within root offset b.
Proof.
  unfold within. intros [Hlo [Hhi Htext]] [Hlo' [Hhi' Htext']].
  repeat split; try lia.
  replace (snd b - offset) with ((snd e - offset) + (snd b - snd e)) by lia.
  rewrite drop_drop. rewrite <- Htext in Htext'.
  rewrite take_drop_take in Htext' by lia. exact Htext'.
Qed.

Lemma descendants_preorder (e x : Entry) :
  In x (descendants e) -> In x (preorder (fst e) (snd e)).
Proof.
  unfold descendants. destruct (preorder (fst e) (snd e)); [intros [] |].
  intros H. now right.
Qed.

Lemma within_textAt (root : Node) (b : Entry) :
  within root 0 b ->
  textAt (entryRange b) (unparse root) = unparse (fst b)
  /\ tr_end (entryRange b) <= String.length (unparse root).
Proof.
  unfold within, textAt, entryRange, textRange, cursorAt, node.
  cbn [tr_start tr_end c_current]. intros [_ [Hhi Htext]].
  rewrite Nat.sub_0_r in Htext. split; [| lia].
  now rewrite Nat.add_comm, Nat.add_sub.
Qed.







End TreeFacts.

(** ** Ranges and shape of the fix *)

Section FurtherFix.

Context {collaborators : Collaborators}.

Lemma spawn_ahead (e : Entry) : c_ahead (spawn (cursorAt e)) = descendants e.
Proof. reflexivity. Qed.

Lemma functionBodies_within (e b : Entry) :
  In b (functionBodies (cursorAt e)) -> within (fst e) (snd e) b.
Proof.
  unfold functionBodies. rewrite spawn_ahead. intros H.
  apply filter_In in H as [H _]. apply preorder_within.
  now apply descendants_preorder.
Qed.

(** X5. When the tree of the document gives back the text of the
    document, every function-body edit of the fix replaces, within the
    document, exactly the text it was computed from: its new text is the
    rewriting of the text of the document in its range. *)
Theorem body_edits_cover_their_text (prefix contractName : string)
  (variables : list Variable_) (textDocument : TextDocument) :
  unparse (tree (parse (getSolidityVersion textDocument)
                       NonterminalKind.SourceUnit (getText textDocument)))
  = getText textDocument ->
  exists bodies : list Entry,
    functionEdits prefix contractName variables textDocument
    = map (fun b =>
             {| range := slangToVSCodeRange textDocument (entryRange b);
                newText := rewriteFunctionText contractName variables
                             (textAt (entryRange b) (getText textDocument)) |})
          bodies
    /\ forall b, In b bodies ->
                 tr_end (entryRange b) <= String.length (getText textDocument).
Proof.
  intros Htext. unfold functionEdits. rewrite processContract_spec.
  destruct (find _ _) as [e |] eqn:Hfind.
  - apply find_some in Hfind as [Hin _].
    assert (He : within (tree (parse (getSolidityVersion textDocument)
                                     NonterminalKind.SourceUnit
                                     (getText textDocument))) 0 e).
    { apply preorder_within. now apply (descendants_preorder (_, 0)). }
    assert (Hb : forall b, In b (functionBodies (cursorAt e)) ->
                   textAt (entryRange b) (getText textDocument) = unparse (fst b)
                   /\ tr_end (entryRange b) <= String.length (getText textDocument)).
    { intros b Hb. rewrite <- Htext. apply within_textAt.
      apply (within_trans _ 0 e b He). now apply functionBodies_within. }
    exists (functionBodies (cursorAt e)). cbn [snd]. split.
    + apply map_ext_in. intros b Hin'. unfold bodyEdit.
      now rewrite (proj1 (Hb b Hin')).
    + intros b Hin'. apply (Hb b Hin').
  - exists []. split; [reflexivity | intros b []].
Qed.



(** X7. When the detector answers, its answer is a range inside the
    contract: the range of the first closing-brace leaf of the contract
    in document order, whatever member that brace closes, and the range
    of the whole contract when the contract has no such leaf. *)
Theorem detector_answer (contractCursor : Cursor)
  (prefix contractName : string) (r : TextRange) :
  getNamespaceStructEndRange contractCursor prefix contractName = Some r ->
  tr_start (textRange contractCursor) <= tr_start r
  /\ tr_end r <= tr_end (textRange contractCursor)
  /\ ((exists pre e rest,
          c_ahead (spawn contractCursor) = pre ++ e :: rest
          /\ isTerminalWithKind TerminalKind.CloseBrace (fst e) = true
          /\ (forall x, In x pre ->
                isTerminalWithKind TerminalKind.CloseBrace (fst x) = false)
          /\ r = entryRange e)
      \/ ((forall x, In x (c_ahead (spawn contractCursor)) ->
             isTerminalWithKind TerminalKind.CloseBrace (fst x) = false)
          /\ r = textRange contractCursor)).
Proof.
  unfold getNamespaceStructEndRange. intros H.
  destruct (node _) as [k text | k cs]; [| discriminate].
  destruct (includes text _); [| discriminate]. injection H as <-.
  unfold goToNextTerminalWithKind, goToNextMatching.
  destruct (seek _ (c_ahead (spawn contractCursor))) as [[e rest] |] eqn:Hs;
    cbn [snd].
  - apply seek_split in Hs as [pre [Hl [Hpre He]]].
    assert (Hin : In e (descendants (c_current contractCursor))).
    { change (descendants (c_current contractCursor))
        with (c_ahead (spawn contractCursor)).
      rewrite Hl. apply in_or_app. right. now left. }
    apply descendants_preorder, preorder_within in Hin as [Hlo [Hhi _]].
    unfold textRange, node. cbn [tr_start tr_end c_current].
    repeat split; try lia.
    left. exists pre, e, rest. repeat split; assumption.
  - unfold textRange, node. cbn [tr_start tr_end c_current c_root spawn cursorAt].
    repeat split; try lia.
    right. split; [| reflexivity].
    intros x Hx. clear -Hs Hx. revert Hx.
    induction (c_ahead (spawn contractCursor)) as [|y l IH]; [intros [] |].
    simpl in Hs. destruct (isTerminalWithKind TerminalKind.CloseBrace (fst y)) eqn:Hy;
      [discriminate |].
    intros [<- | Hx]; [exact Hy | now apply IH].
Qed.

(** X8. The detector reads the first documentation comment of the
    contract and no other, and it looks for the tag anywhere in it: it
    answers exactly when, among the nodes below the contract in document
    order, the first single-line documentation comment has a text of the
    form [a ++ "@custom:storage-location erc7201:" ++ id ++ b], [id] being
    the namespace id of the prefix and the contract name, whatever [a]
    and [b] are. *)
Theorem detector_reads_first_comment (contractCursor : Cursor)
  (prefix contractName : string) :
  (exists k children, node contractCursor = NonterminalNode k children) ->
  (getNamespaceStructEndRange contractCursor prefix contractName <> None
   <-> exists (pre : list Entry) (e : Entry) (rest : list Entry) (a b : string),
         c_ahead (spawn contractCursor) = pre ++ e :: rest
         /\ (forall x, In x pre ->
               forall text,
                 fst x <> TerminalNode TerminalKind.SingleLineNatSpecComment text)
         /\ fst e = TerminalNode TerminalKind.SingleLineNatSpecComment
                                 (a ++ ("@custom:storage-location erc7201:"
                                        ++ getNamespaceId prefix contractName)
                                    ++ b)%string).
Proof.
  intros Hroot. rewrite (detector_answers contractCursor prefix contractName Hroot).
  split.
  - intros [e [rest [k [text [Hs [He Hinc]]]]]].
    apply seek_split in Hs as [pre [Hl [Hpre Hk]]].
    apply includes_app in Hinc as [a [b ->]].
    exists pre, e, rest, a, b. split; [exact Hl |]. split.
    + intros x Hx text Hfx. specialize (Hpre x Hx). rewrite Hfx in Hpre.
      discriminate.
    + rewrite He in Hk |- *. f_equal.
      destruct k; simpl in Hk; [reflexivity | discriminate | discriminate].
  - intros [pre [e [rest [a [b [Hl [Hpre He]]]]]]].
    exists e, rest, TerminalKind.SingleLineNatSpecComment,
      (a ++ storageLocationTag prefix contractName ++ b)%string.
    split; [| split; [exact He | apply includes_app; now exists a, b]].
    rewrite Hl, seek_behind.
    + cbn [seek]. now rewrite He.
    + intros x Hx. specialize (Hpre x Hx).
      destruct (fst x) as [k text | k cs]; [| reflexivity].
      destruct k; simpl; try reflexivity. now destruct (Hpre text).
Qed.

(** X9. A contract that does not parse again on its own counts as
    absent: when the contract loop stops on no node of the document, be
    it that no contract has the name or that the ones that have it do
    not parse without errors, the fix holds the new-container edits and
    no function body is rewritten. *)
Theorem unusable_contract_new_container_only
  (fixesDiagnostics : list Diagnostic) (title prefix contractName : string)
  (v : Variable_) (vs : list Variable_) (textDocument : TextDocument) :
  (forall x, In x (scannedNodes textDocument) ->
             passedOver (getSolidityVersion textDocument) contractName x) ->
  getMoveAllVariablesToNamespaceQuickFix fixesDiagnostics title prefix
                                         contractName (v :: vs) textDocument
  = Some {| title := title; kind := QuickFix;
            edit := {| changes :=
              [(uri textDocument,
                {| range := v_range v;
                   newText := printNamespaceTemplate
                                {| ns_contractName := contractName;
                                   ns_prefix := prefix;
                                   ns_variables := v :: vs |} |}
                :: map (fun w => {| range := v_range w; newText := "" |}) vs)] |};
            diagnostics := fixesDiagnostics |}.
Proof.
  intros Hall. rewrite quickFix_unfold. unfold detectedContainer, functionEdits.
  rewrite processContract_spec. rewrite find_nothing; [reflexivity |].
  intros x Hx. apply accepted_false. now apply Hall.
Qed.

End FurtherFix.

(** ** The further properties on the sample documents *)

Section FurtherSamples.

Local Open Scope string_scope.


Lemma body_without_brace_witness :
  rewriteFunctionText "Main"
    [Demo.variableAt 1 "total"; Demo.variableAt 2 "cap$"]
    ("; // adds cap$ to total" ++ nl)
  = withoutLast (replaceVariables
                   [Demo.variableAt 1 "total"; Demo.variableAt 2 "cap$"]
                   ("; // adds cap$ to total" ++ nl))
    ++ "{" ++ nl ++ "        " ++ expectedLine "Main" ++ nl
    ++ replaceVariables [Demo.variableAt 1 "total"; Demo.variableAt 2 "cap$"]
         ("; // adds cap$ to total" ++ nl).
Proof.
  apply (body_without_brace "Main"
           [Demo.variableAt 1 "total"; Demo.variableAt 2 "cap$"]
           ("; // adds cap$ to total" ++ nl)).
  - intros v [<- | [<- | []]]; reflexivity.
  - reflexivity.
  - reflexivity.
  - exists (Demo.variableAt 1 "total"). split; [now left |].
    exists "; // adds cap$ to ", nl. repeat split; reflexivity.
  - vm_compute. reflexivity.
Defined.

Lemma rewriting_only_inserts_witness :
  Subseq "{ total += cap$; }"
         (rewriteFunctionText "Main"
            [Demo.variableAt 1 "total"; Demo.variableAt 2 "cap$"]
            "{ total += cap$; }").
Proof.
  apply (rewriting_only_inserts "Main"
           [Demo.variableAt 1 "total"; Demo.variableAt 2 "cap$"]
           "{ total += cap$; }").
  intros v [<- | [<- | []]]; reflexivity.
Defined.

Lemma variable_order_irrelevant_witness :
  editNamespaceVariablesInFunctions (collaborators := Demo.demoCollaborators)
    (cursorAt (Demo.taggedContract, 0)) "Main"
    [Demo.variableAt 3 "total"; Demo.variableAt 4 "count"] Demo.taggedDocument []
  = editNamespaceVariablesInFunctions (collaborators := Demo.demoCollaborators)
      (cursorAt (Demo.taggedContract, 0)) "Main"
      [Demo.variableAt 4 "count"; Demo.variableAt 3 "total"] Demo.taggedDocument [].
Proof.
  apply (variable_order_irrelevant (collaborators := Demo.demoCollaborators)).
  - apply wordNames_two; reflexivity.
  - apply perm_swap.
Defined.

Lemma body_edits_cover_their_text_witness :
  exists bodies : list Entry,
    functionEdits (collaborators := Demo.demoCollaborators) "example" "Main"
                  [Demo.variableAt 1 "total"] Demo.plainDocument
    = map (fun b =>
             {| range := slangToVSCodeRange (Collaborators := Demo.demoCollaborators)
                           Demo.plainDocument (entryRange b);
                newText := rewriteFunctionText "Main" [Demo.variableAt 1 "total"]
                             (textAt (entryRange b) (getText Demo.plainDocument)) |})
          bodies
    /\ forall b, In b bodies ->
                 tr_end (entryRange b) <= String.length (getText Demo.plainDocument).
Proof.
  apply (body_edits_cover_their_text (collaborators := Demo.demoCollaborators)
           "example" "Main" [Demo.variableAt 1 "total"] Demo.plainDocument).
  vm_compute. reflexivity.
Defined.


Lemma detector_answer_witness :
  tr_start (textRange (cursorAt (Demo.taggedContract, 0))) <= 117
  /\ 118 <= tr_end (textRange (cursorAt (Demo.taggedContract, 0)))
  /\ ((exists (pre : list Entry) (e : Entry) (rest : list Entry),
          c_ahead (spawn (cursorAt (Demo.taggedContract, 0)))
          = (pre ++ e :: rest)%list
          /\ isTerminalWithKind TerminalKind.CloseBrace (fst e) = true
          /\ (forall x, In x pre ->
                isTerminalWithKind TerminalKind.CloseBrace (fst x) = false)
          /\ {| tr_start := 117; tr_end := 118 |} = entryRange e)
      \/ ((forall x, In x (c_ahead (spawn (cursorAt (Demo.taggedContract, 0)))) ->
             isTerminalWithKind TerminalKind.CloseBrace (fst x) = false)
          /\ {| tr_start := 117; tr_end := 118 |}
             = textRange (cursorAt (Demo.taggedContract, 0)))).
Proof.
  apply (detector_answer (collaborators := Demo.demoCollaborators)
           (cursorAt (Demo.taggedContract, 0)) "example" "Main"
           {| tr_start := 117; tr_end := 118 |}).
  vm_compute. reflexivity.
Defined.

Lemma detector_reads_first_comment_witness :
  getNamespaceStructEndRange (collaborators := Demo.demoCollaborators)
    (cursorAt (Demo.taggedContract, 0)) "example" "Main" <> None
  <-> exists (pre : list Entry) (e : Entry) (rest : list Entry) (a b : string),
        c_ahead (spawn (cursorAt (Demo.taggedContract, 0)))
        = (pre ++ e :: rest)%list
        /\ (forall x, In x pre ->
              forall text,
                fst x <> TerminalNode TerminalKind.SingleLineNatSpecComment text)
        /\ fst e = TerminalNode TerminalKind.SingleLineNatSpecComment
                                (a ++ ("@custom:storage-location erc7201:"
                                       ++ getNamespaceId
                                            (Collaborators := Demo.demoCollaborators)
                                            "example" "Main")
                                   ++ b).
Proof.
  apply (detector_reads_first_comment (collaborators := Demo.demoCollaborators)
           (cursorAt (Demo.taggedContract, 0)) "example" "Main").
  eexists. eexists. reflexivity.
Defined.

Lemma unusable_contract_new_container_only_witness :
  getMoveAllVariablesToNamespaceQuickFix
    (collaborators := Broken.brokenCollaborators) [] "Move" "example" "Main"
    [Demo.variableAt 1 "total"] Broken.brokenDocument
  = Some {| title := "Move"; kind := QuickFix;
            edit := {| changes :=
              [(uri Broken.brokenDocument,
                {| range := v_range (Demo.variableAt 1 "total");
                   newText := printNamespaceTemplate
                                (Collaborators := Broken.brokenCollaborators)
                                {| ns_contractName := "Main";
                                   ns_prefix := "example";
                                   ns_variables := [Demo.variableAt 1 "total"] |} |}
                :: map (fun w => {| range := v_range w; newText := "" |}) [])] |};
            diagnostics := [] |}.
Proof.
  apply (unusable_contract_new_container_only
           (collaborators := Broken.brokenCollaborators) [] "Move" "example" "Main"
           (Demo.variableAt 1 "total") [] Broken.brokenDocument).
  apply passedOver_all. vm_compute. reflexivity.
Defined.

End FurtherSamples.

(** ** One prefix per occurrence *)

Section Counting.

Local Open Scope string_scope.

Variable name : string.
Hypothesis name_ok : wordName name = true.

Lemma countMatches_inside (prev : option ascii) (s : string) :
  allWord s = true -> isWordAt prev = true -> countMatches name prev s = 0.
Proof.
  revert prev. induction s as [|c s IH]; intros prev Hs Hp; cbn [countMatches].
  - now rewrite (matchAt_end name name_ok).
  - rewrite (matchAt_inside name name_ok prev _ Hp).
    simpl in Hs. apply andb_true_iff in Hs as [Hc Hs]. now rewrite IH.
Qed.

Lemma countMatches_run (prev : option ascii) (w : string) :
  allWord w = true -> w <> "" ->
  countMatches name prev w = if matchAt name prev w then 1 else 0.
Proof.
  intros Hw Hne. destruct w as [|c w]; [congruence |]. cbn [countMatches].
  simpl in Hw. apply andb_true_iff in Hw as [Hc Hw].
  rewrite countMatches_inside by assumption. lia.
Qed.

Lemma scan_run_exact (prev : option ascii) (w : string) :
  allWord w = true -> w <> "" ->
  scan name prev 0 w = (if matchAt name prev w then "$." else "") ++ w.
Proof.
  intros Hw Hne. destruct w as [|c w]; [congruence |].
  rewrite (scan_here name name_ok).
  destruct (matchAt name prev (String c w)) eqn:Hm.
  - apply (matchAt_spec name name_ok) in Hm as [_ [post [H Hpost]]].
    assert (post = "") as ->.
    { rewrite H, allWord_app in Hw. apply andb_true_iff in Hw as [_ Hw].
      destruct post as [|x post]; [reflexivity |]. simpl in *.
      apply andb_true_iff in Hw as [Hx _]. congruence. }
    rewrite append_nil_r in H. rewrite (scan_skip_all name name_ok).
    + now rewrite append_nil_r, <- H.
    + rewrite <- H. simpl. lia.
  - simpl in Hw. apply andb_true_iff in Hw as [Hc Hw].
    now rewrite (scan_inside name name_ok).
Qed.

Lemma countMatches_app (prev : option ascii) (a b : string) :
  isWordAt (lastOr prev a) = false \/ isWordAt (first b) = false ->
  countMatches name prev (a ++ b)
  = countMatches name prev a + countMatches name (lastOr prev a) b.
Proof.
  revert prev. induction a as [|c a IH]; intros prev Hseam.
  - simpl "++". cbn [lastOr].
    change (countMatches name prev "")
      with ((if matchAt name prev "" then 1 else 0) + 0).
    now rewrite (matchAt_end name name_ok).
  - change (String c a ++ b) with (String c (a ++ b)). cbn [countMatches].
    change (String c (a ++ b)) with (String c a ++ b).
    rewrite (matchAt_app name name_ok prev (String c a) b)
      by (discriminate || exact Hseam).
    rewrite IH by exact Hseam. cbn [lastOr]. lia.
Qed.

Lemma scan_counts (n : nat) :
  forall t, String.length t <= n ->
  forall prev,
    String.length (scan name prev 0 t)
    = String.length t + 2 * countMatches name prev t.
Proof.
  induction n as [|n IH]; intros t Hn prev.
  - destruct t; [| simpl in Hn; lia].
    rewrite (scan_end name name_ok). cbn [countMatches].
    now rewrite (matchAt_end name name_ok).
  - destruct t as [|c t].
    + rewrite (scan_end name name_ok). cbn [countMatches].
      now rewrite (matchAt_end name name_ok).
    + destruct (isWord c) eqn:Hc.
      * destruct (word_prefix (String c t)) as [w [rest [Ht [Hw Hrest]]]].
        assert (Hne : w <> "").
        { intros ->. simpl in Ht. subst rest. simpl in Hrest. congruence. }
        assert (Hlen : String.length rest <= n).
        { apply (f_equal String.length) in Ht. rewrite length_append in Ht.
          destruct w; [congruence |]. simpl in Ht, Hn. lia. }
        rewrite Ht.
        rewrite (scan_app name name_ok prev 0 w rest) by (lia || now right).
        rewrite countMatches_app by now right.
        rewrite scan_run_exact, countMatches_run by assumption.
        rewrite !length_append, (IH rest Hlen).
        destruct (matchAt name prev w); simpl; lia.
      * rewrite (scan_here name name_ok). cbn [countMatches].
        rewrite (matchAt_nonword name name_ok) by exact Hc.
        cbn [String.length]. rewrite IH by (simpl in Hn; lia). lia.
Qed.

Lemma scan_behind_word (p q : option ascii) (s : string) :
  isWordAt (first s) = false -> scan name p 0 s = scan name q 0 s.
Proof.
  destruct s as [|c s]; [now rewrite !(scan_end name name_ok) |].
  intros Hc. simpl in Hc.
  now rewrite !(scan_here name name_ok), !(matchAt_nonword name name_ok) by exact Hc.
Qed.

(** X10. One replacement puts [$.] right in front of every whole-word
    occurrence of the name and changes nothing else: a text without such
    an occurrence is left as it is; around a whole-word occurrence the
    result is the result for the text before it, [$.] and the name, and
    the result for the text behind it; and the text grows by exactly the
    two characters of [$.] for every position at which the pattern
    matches. *)
Theorem one_prefix_per_occurrence :
  (forall text, ~ occursWord name text -> replaceWord name text = text)
  /\ (forall pre post,
        isWordAt (lastOr None pre) = false ->
        isWordAt (first post) = false ->
        replaceWord name (pre ++ name ++ post)
        = replaceWord name pre ++ "$." ++ name ++ replaceWord name post)
  /\ (forall text,
        String.length (replaceWord name text)
        = String.length text + 2 * countMatches name None text).
Proof.
  destruct (wordName_inv name name_ok) as [Hne Hall].
  split; [| split].
  - intros text Hno. unfold replaceWord. apply (scan_fixed name name_ok).
    apply not_true_is_false. intros Hm.
    now apply (occursWord_matches name name_ok) in Hm.
  - intros pre post Hpre Hpost. unfold replaceWord.
    rewrite (scan_app name name_ok None 0 pre (name ++ post)) by (lia || now left).
    rewrite (scan_app name name_ok (lastOr None pre) 0 name post)
      by (lia || now right).
    rewrite (scan_run_exact (lastOr None pre) name Hall Hne).
    assert (Hm : matchAt name (lastOr None pre) name = true).
    { apply (matchAt_spec name name_ok). split; [exact Hpre |].
      exists "". now rewrite append_nil_r. }
    rewrite Hm, (scan_behind_word _ None post Hpost).
    now rewrite !append_assoc.
  - intros text. apply (scan_counts (String.length text) text (le_n _) None).
Qed.

End Counting.

Lemma one_prefix_per_occurrence_witness :
  replaceWord "x" "{ y = xs; }" = "{ y = xs; }"
  /\ replaceWord "x" ("{ x = xs + " ++ "x" ++ "; }")%string
     = (replaceWord "x" "{ x = xs + " ++ "$." ++ "x" ++ replaceWord "x" "; }")%string
  /\ String.length (replaceWord "x" "{ x = xs + x; }")
     = String.length "{ x = xs + x; }" + 2 * countMatches "x" None "{ x = xs + x; }".
Proof.
  destruct (one_prefix_per_occurrence "x" eq_refl) as [Hnone [Hat Hlen]].
  split; [| split].
  - apply Hnone. intros H.
    apply (occursWord_matches "x" eq_refl) in H. discriminate.
  - apply Hat; reflexivity.
  - apply Hlen.
Defined.
